(** * dagger: the concurrent graph engine, sequential semantics

    A shallow embedding of [primitive/dag.go] (the [Graph] type) and of the
    namespace-partitioned map it is built on ([NamespacedSyncMap] and
    [SyncCache]).  Every operation is modelled as the function on states a
    single goroutine observes: the locks ([mu], [closeOnce], [once]) are not
    part of the state.

    A Go map (and a [sync.Map]) is a finite map; [gmap] gives it extensional
    equality, so "the index is exactly as it was" is plain equality.  Go leaves
    the iteration order of a map unspecified; the embedding iterates in the
    order of [map_to_list], and statements that must hold for every order
    quantify over permutations. *)

From stdpp Require Import gmap strings list fin_maps.

(** ** Results of code that can panic

    Two run-time panics can end the code modelled here: the dereference of a
    nil pointer, and the hashing of a map key whose dynamic type is not
    hashable. *)

Inductive outcome (A : Type) : Type :=
  | Ret (a : A)
  | NilDereference
  | UnhashableKey.
Arguments Ret {A} a.
Arguments NilDereference {A}.
Arguments UnhashableKey {A}.

Definition bind_outcome {A B} (o : outcome A) (k : A → outcome B) : outcome B :=
  match o with
  | Ret a => k a
  | NilDereference => NilDereference
  | UnhashableKey => UnhashableKey
  end.

Definition returned {A} (o : outcome A) : bool :=
  match o with
  | Ret _ => true
  | NilDereference | UnhashableKey => false
  end.

(** [p.f] on a pointer: a nil pointer stops the program. *)
Definition deref {A} (p : option A) : outcome A :=
  match p with
  | Some a => Ret a
  | None => NilDereference
  end.

(** A value of type [interface{}] handed to [sync.Map.Load] as a key.  Load
    hashes its key: a string can be a key of a cache (the keys of a cache are
    strings: Range asserts [key.(string)]); any other comparable value is
    hashed and found under no key; a value whose dynamic type is not hashable
    (a Go map, such as Node and edgeMap, a slice, a func) makes Load panic. *)
Inductive key_view : Type :=
  | StringKey (s : string)
  | OtherComparable
  | Unhashable.

(** ** Callbacks and ranging

    A Go callback [func(key, value) bool] is a closure: it may update the
    variables it captured, and it answers whether the iteration goes on.  A
    callback is therefore a function from the captured state to the new state
    and the answer. *)

Definition callback (K V S : Type) : Type := K → V → S → S * bool.

(** One pass over the entries; the flag is [false] when the callback asked to
    stop. *)
Fixpoint range_entries {K V S} (f : callback K V S) (l : list (K * V)) (s : S)
  : S * bool :=
  match l with
  | [] => (s, true)
  | (k, v) :: l' =>
      let '(s', continue) := f k v s in
      if continue then range_entries f l' s' else (s', false)
  end.

(** [AnyType]: the wildcard namespace.

    Modelled from the spec: the constant [AnyType] is declared outside the
    files at hand; the spec calls it "a distinguished wildcard namespace
    value". *)
Definition AnyType : string := "*".

(** ** SyncCache: one namespace, a [sync.Map] with string keys *)

Module SyncCache.
Section sync_cache.
Context {V : Type}.

Abbreviation t := (gmap string V).

Definition Get (key : string) (c : t) : option V := c !! key.

Definition Set_ (key : string) (value : V) (c : t) : t := <[key := value]> c.

Definition Range {S} (f : callback string V S) (c : t) (s : S) : S :=
    fst (range_entries f (map_to_list c) s).

Definition Delete (key : string) (c : t) : t := delete key c.

Definition Len (c : t) : nat :=
    Range (λ _ _ i, (S i, true)) c 0.

Definition Exists (key : string) (c : t) : bool :=
    match Get key c with Some _ => true | None => false end.

Definition Map (c : t) : gmap string V :=
    Range (λ key value data, (<[key := value]> data, true)) c ∅.

Definition SetAll (m : gmap string V) (c : t) : t :=
    Range (λ k v c, (Set_ k v c, true)) m c.

Definition Copy (c : option t) : gmap string V :=
    match c with
    | None => ∅
    | Some c => Range (λ k v data, (<[k := v]> data, true)) c ∅
    end.

Definition Filter (filter : string → V → bool) (c : option t) : gmap string V :=
    match c with
    | None => ∅
    | Some c =>
        Range (λ key value data,
                 (if filter key value then <[key := value]> data else data, true))
              c ∅
    end.

Definition Union (c other : option t) : gmap string V :=
    let data :=
      match c with
      | Some c => Range (λ k v data, (<[k := v]> data, true)) c ∅
      | None => ∅
      end in
    match other with
    | Some other => Range (λ k v data, (<[k := v]> data, true)) other data
    | None => data
    end.

Definition Clear (c : t) : t :=
    Range (λ key _ c, (Delete key c, true)) c c.

(** [other.Exists(v)] looks a VALUE up among the keys; [view v] says what
    Load makes of [v]. *)
Context (view : V → key_view).

Definition ExistsValue (v : V) (other : t) : outcome bool :=
    match view v with
    | StringKey s => Ret (Exists s other)
    | OtherComparable => Ret false
    | Unhashable => UnhashableKey
    end.

(** The callback of Intersection.  A panic in it unwinds the Range: nothing
    is visited after it. *)
Definition store_if_key (other : t) : callback string V (outcome (gmap string V)) :=
    λ k v data,
      let data :=
        bind_outcome data (λ data,
          bind_outcome (ExistsValue v other) (λ found,
            Ret (if found then <[k := v]> data else data))) in
      (data, returned data).

Definition Intersection (c other : option t) : outcome (gmap string V) :=
    match c with
    | None => Ret ∅
    | Some c =>
        match other with
        | Some other => Range (store_if_key other) c (Ret ∅)
        | None => Ret ∅
        end
    end.
End sync_cache.
End SyncCache.

(** ** NamespacedSyncMap: namespace -> *SyncCache *)

Module NamespacedSyncMap.
Section namespaced.
Context {V : Type}.

Abbreviation t := (gmap string (gmap string V)).

Definition newCacheMap : t := ∅.

Definition Len (namespace : string) (n : t) : nat :=
    match n !! namespace with
    | Some c => SyncCache.Len c
    | None => 0
    end.

Definition Namespaces (n : t) : list string := (map_to_list n).*1.

Definition Get (namespace key : string) (n : t) : option V :=
    match n !! namespace with
    | Some c => SyncCache.Get key c
    | None => None
    end.

Definition Set_ (namespace key : string) (value : V) (n : t) : t :=
    let n' := match n !! namespace with
              | Some _ => n
              | None => <[namespace := ∅]> n
              end in
    match n' !! namespace with
    | Some c => <[namespace := SyncCache.Set_ key value c]> n'
    | None => n'
    end.

Definition Range {S} (namespace : string) (f : callback string V S) (n : t)
      (s : S) : S :=
    if decide (namespace = AnyType) then
      foldl (λ s c, SyncCache.Range f c s) s (map_to_list n).*2
    else
      match n !! namespace with
      | Some c => SyncCache.Range f c s
      | None => s
      end.

Definition Delete (namespace key : string) (n : t) : t :=
    match n !! namespace with
    | Some c => <[namespace := SyncCache.Delete key c]> n
    | None => n
    end.

Definition Exists (namespace key : string) (n : t) : outcome bool :=
    bind_outcome (deref (n !! namespace)) (λ c, Ret (SyncCache.Exists key c)).

Definition Copy (namespace : string) (n : t) : gmap string V :=
    SyncCache.Copy (n !! namespace).

Definition Filter (namespace : string) (filter : string → V → bool) (n : t)
    : gmap string V :=
    SyncCache.Filter filter (n !! namespace).

Definition Intersection (view : V → key_view)
      (namespace1 namespace2 : string) (n : t) : outcome (gmap string V) :=
    SyncCache.Intersection view (n !! namespace1) (n !! namespace2).

Definition Union (namespace1 namespace2 : string) (n : t) : gmap string V :=
    SyncCache.Union (n !! namespace1) (n !! namespace2).

Definition Map (namespace : string) (n : t) : outcome (gmap string V) :=
    bind_outcome (deref (n !! namespace)) (λ c, Ret (SyncCache.Map c)).

Definition SetAll (namespace : string) (m : gmap string V) (n : t) : t :=
    let n' := match n !! namespace with
              | Some _ => n
              | None => <[namespace := ∅]> n
              end in
    match n' !! namespace with
    | Some c => <[namespace := SyncCache.SetAll m c]> n'
    | None => n'
    end.

Definition Clear (namespace : string) (n : t) : t :=
    match n !! namespace with
    | Some cache => <[namespace := SyncCache.Clear cache]> n
    | None => n
    end.
End namespaced.
End NamespacedSyncMap.

(** ** The data model of the graph *)

(** Modelled from the spec: the interface [TypedID] is declared outside the
    files at hand; it is "a (type, id) pair that uniquely identifies an entity
    within its type", read through the methods [Type()] and [ID()]. *)
Record TypedID : Type := mkTypedID { Type_ : string; ID : string }.

#[global] Instance TypedID_eq_dec : EqDecision TypedID.
Proof. solve_decision. Defined.

(** The attribute payload is an external collaborator: an opaque bag. *)
Abbreviation Payload := (list (string * string)).

(** Modelled from the spec: the type [Node] is declared outside the files at
    hand; a node is "an entity with a type, an id, and an opaque attribute
    payload". *)
Record Node : Type := mkNode {
  node_type : string;
  node_id : string;
  node_fields : Payload
}.

#[global] Instance Node_eq_dec : EqDecision Node.
Proof. solve_decision. Defined.

(** Modelled from the spec: the type [Edge] is declared outside the files at
    hand; an edge is "a directed relation with its own (type, id), a From
    TypedID, a To TypedID, and an opaque attribute payload". *)
Record Edge : Type := mkEdge {
  edge_type : string;
  edge_id : string;
  From : TypedID;
  To : TypedID;
  edge_fields : Payload
}.

#[global] Instance Edge_eq_dec : EqDecision Edge.
Proof. solve_decision. Defined.

(** A node and an edge are themselves TypedIDs. *)
Definition node_key (n : Node) : TypedID := mkTypedID (node_type n) (node_id n).
Definition edge_key (e : Edge) : TypedID := mkTypedID (edge_type e) (edge_id e).

Definition Node_SetID (id : string) (n : Node) : Node :=
  mkNode (node_type n) id (node_fields n).

Definition Edge_SetID (id : string) (e : Edge) : Edge :=
  mkEdge (edge_type e) id (From e) (To e) (edge_fields e).

(** [if n.ID() == "" { n.SetID(UUID()) }], where [uuid] is what [UUID()]
    returns. *)
Definition Node_assign (uuid : string) (n : Node) : Node :=
  if bool_decide (node_id n = "") then Node_SetID uuid n else n.

Definition Edge_assign (uuid : string) (e : Edge) : Edge :=
  if bool_decide (edge_id e = "") then Edge_SetID uuid e else e.

Inductive error : Type :=
  | ValidationError (field : string)
  | NotFoundError (id : TypedID).

#[global] Instance error_eq_dec : EqDecision error.
Proof. solve_decision. Defined.

(** A TypedID is empty when it carries neither a type nor an id. *)
Definition empty_id (id : TypedID) : bool :=
  bool_decide (Type_ id = "") && bool_decide (ID id = "").

(** Modelled from the spec: the method [Edge.Validate] is declared outside the
    files at hand; it makes AddEdge fail "with a validation error if type,
    From, or To is empty". *)
Definition Validate (e : Edge) : option error :=
  if bool_decide (edge_type e = "") then Some (ValidationError "type")
  else if empty_id (From e) then Some (ValidationError "from")
  else if empty_id (To e) then Some (ValidationError "to")
  else None.

(** ** The adjacency list of one node *)

(** Modelled from the spec: the type [edgeMap] and its methods are declared
    outside the files at hand.  The spec (4.3) gives the contract: the edges of
    one node, grouped by edge type; "Add(edge): inserts, keyed by edge id,
    grouped under the edge's type"; "Delete(id): removes by edge id regardless
    of type grouping; no-op if absent": [DelEdge] is given the TypedID of the
    edge and removes its [ID] from the group of every type, whatever the type
    the TypedID names; "RangeByType(type, fn): iterate edges of one type, or
    all types under the wildcard; early-stop supported".  [edgeMap{}] in
    AddEdge is the empty Go map. *)
Module edgeMap.

Abbreviation t := (gmap string (gmap string Edge)).

Definition empty : t := ∅.

Definition AddEdge (e : Edge) (m : t) : t :=
  <[edge_type e := <[edge_id e := e]> (default ∅ (m !! edge_type e))]> m.

Definition DelEdge (id : TypedID) (m : t) : t :=
  delete (ID id) <$> m.

(** The entry filed under type [t] and id [i]. *)
Definition lookup_entry (ty i : string) (m : t) : option Edge :=
  m !! ty ≫= (.!! i).

(** All entries, group after group. *)
Definition entries (m : t) : list (string * string * Edge) :=
  '(ty, group) ← map_to_list m; (λ '(i, e), (ty, i, e)) <$> map_to_list group.

Definition RangeType {S} (typ : string) (fn : Edge → S → S * bool) (m : t)
    (s : S) : S :=
  if decide (typ = AnyType) then
    fst (range_entries (λ _ e s, fn e s) (entries m) s)
  else
    match m !! typ with
    | Some group => fst (range_entries (λ _ e s, fn e s) (map_to_list group) s)
    | None => s
    end.

(** [Range(fn)] visits every edge of the list.  The callback may delete
    entries of the very map being ranged over (DelNode does); a Go range does
    not produce an entry that was removed before it was reached.  [live s] is
    the map as the callback left it. *)
Definition Range {S} (live : S → t) (fn : Edge → S → S) (m : t) (s : S) : S :=
  foldl (λ s '(ty, i, e),
           match lookup_entry ty i (live s) with
           | Some _ => fn e s
           | None => s
           end) s (entries m).

End edgeMap.

(** ** Graph *)

Record Graph : Type := mkGraph {
  nodes : gmap string (gmap string Node);
  edges : gmap string (gmap string Edge);
  edgesFrom : gmap string (gmap string edgeMap.t);
  edgesTo : gmap string (gmap string edgeMap.t)
}.

Module NS := NamespacedSyncMap.

Definition NewGraphCacheMap : Graph :=
  mkGraph NS.newCacheMap NS.newCacheMap NS.newCacheMap NS.newCacheMap.

Definition EdgeTypes (g : Graph) : list string := NS.Namespaces (edges g).

Definition NodeTypes (g : Graph) : list string := NS.Namespaces (nodes g).

(** [uuid] is the identifier the generator [UUID()] hands out if it is asked. *)
Definition AddNode (uuid : string) (n : Node) (g : Graph) : Graph :=
  let n := Node_assign uuid n in
  mkGraph (NS.Set_ (node_type n) (node_id n) n (nodes g))
          (edges g) (edgesFrom g) (edgesTo g).

Definition GetNode (id : TypedID) (g : Graph) : option Node :=
  NS.Get (Type_ id) (ID id) (nodes g).

Definition RangeNodeTypes {S} (typ : string) (fn : Node → S → S * bool)
    (g : Graph) (s : S) : S :=
  NS.Range typ (λ _ n s, fn n s) (nodes g) s.

Definition RangeNodes {S} (fn : Node → S → S * bool) (g : Graph) (s : S) : S :=
  foldl (λ s namespace, NS.Range namespace (λ _ n s, fn n s) (nodes g) s)
        s (NS.Namespaces (nodes g)).

Definition RangeEdges {S} (fn : Edge → S → S * bool) (g : Graph) (s : S) : S :=
  foldl (λ s namespace, NS.Range namespace (λ _ e s, fn e s) (edges g) s)
        s (NS.Namespaces (edges g)).

Definition RangeEdgeTypes {S} (edgeType : string) (fn : Edge → S → S * bool)
    (g : Graph) (s : S) : S :=
  NS.Range edgeType (λ _ e s, fn e s) (edges g) s.

Definition HasNode (id : TypedID) (g : Graph) : bool :=
  match GetNode id g with Some _ => true | None => false end.

Definition GetEdge (id : TypedID) (g : Graph) : option Edge :=
  NS.Get (Type_ id) (ID id) (edges g).

Definition HasEdge (id : TypedID) (g : Graph) : bool :=
  match GetEdge id g with Some _ => true | None => false end.

Definition DelEdge (id : TypedID) (g : Graph) : Graph :=
  let g :=
    match NS.Get (Type_ id) (ID id) (edges g) with
    | Some edge =>
        let g :=
          match NS.Get (Type_ (From edge)) (ID (From edge)) (edgesFrom g) with
          | Some es =>
              mkGraph (nodes g) (edges g)
                (NS.Set_ (Type_ (From edge)) (ID (From edge))
                         (edgeMap.DelEdge id es) (edgesFrom g))
                (edgesTo g)
          | None => g
          end in
        match NS.Get (Type_ (To edge)) (ID (To edge)) (edgesTo g) with
        | Some es =>
            mkGraph (nodes g) (edges g) (edgesFrom g)
              (NS.Set_ (Type_ (To edge)) (ID (To edge))
                       (edgeMap.DelEdge id es) (edgesTo g))
        | None => g
        end
    | None => g
    end in
  mkGraph (nodes g) (NS.Delete (Type_ id) (ID id) (edges g))
          (edgesFrom g) (edgesTo g).

(** The adjacency list DelNode ranges over is the Go map stored under [id]:
    what DelEdge removes from it is gone for the rest of the range. *)
Definition outbound (id : TypedID) (g : Graph) : edgeMap.t :=
  default edgeMap.empty (NS.Get (Type_ id) (ID id) (edgesFrom g)).

Definition DelNode (id : TypedID) (g : Graph) : Graph :=
  let g :=
    match NS.Get (Type_ id) (ID id) (edgesFrom g) with
    | Some es => edgeMap.Range (outbound id) (λ e g, DelEdge (edge_key e) g) es g
    | None => g
    end in
  mkGraph (NS.Delete (Type_ id) (ID id) (nodes g))
          (edges g) (edgesFrom g) (edgesTo g).

Definition AddEdge (uuid : string) (e : Edge) (g : Graph) : Graph * option error :=
  let e := Edge_assign uuid e in
  match Validate e with
  | Some err => (g, Some err)
  | None =>
      if negb (HasNode (From e) g) then (g, Some (NotFoundError (From e)))
      else if negb (HasNode (To e) g) then (g, Some (NotFoundError (To e)))
      else
        let g := mkGraph (nodes g) (NS.Set_ (edge_type e) (edge_id e) e (edges g))
                         (edgesFrom g) (edgesTo g) in
        let g :=
          match NS.Get (Type_ (From e)) (ID (From e)) (edgesFrom g) with
          | Some es =>
              mkGraph (nodes g) (edges g)
                (NS.Set_ (Type_ (From e)) (ID (From e)) (edgeMap.AddEdge e es)
                         (edgesFrom g))
                (edgesTo g)
          | None =>
              mkGraph (nodes g) (edges g)
                (NS.Set_ (Type_ (From e)) (ID (From e))
                         (edgeMap.AddEdge e edgeMap.empty) (edgesFrom g))
                (edgesTo g)
          end in
        let g :=
          match NS.Get (Type_ (To e)) (ID (To e)) (edgesTo g) with
          | Some es =>
              mkGraph (nodes g) (edges g) (edgesFrom g)
                (NS.Set_ (Type_ (To e)) (ID (To e)) (edgeMap.AddEdge e es)
                         (edgesTo g))
          | None =>
              mkGraph (nodes g) (edges g) (edgesFrom g)
                (NS.Set_ (Type_ (To e)) (ID (To e))
                         (edgeMap.AddEdge e edgeMap.empty) (edgesTo g))
          end in
        (g, None)
  end.

Definition EdgesFrom {S} (edgeType : string) (id : TypedID)
    (fn : Edge → S → S * bool) (g : Graph) (s : S) : S :=
  match NS.Get (Type_ id) (ID id) (edgesFrom g) with
  | Some es => edgeMap.RangeType edgeType fn es s
  | None => s
  end.

Definition EdgesTo {S} (edgeType : string) (id : TypedID)
    (fn : Edge → S → S * bool) (g : Graph) (s : S) : S :=
  match NS.Get (Type_ id) (ID id) (edgesTo g) with
  | Some es => edgeMap.RangeType edgeType fn es s
  | None => s
  end.

(** Modelled from the spec: the type [Export] is declared outside the files at
    hand; a snapshot is "an ordered sequence of nodes and an ordered sequence
    of edges". *)
Record Export : Type := mkExport {
  Nodes : list Node;
  Edges : list Edge
}.

Definition Graph_Export (g : Graph) : Export :=
  mkExport (RangeNodes (λ n ns, (ns ++ [n], true)) g [])
           (RangeEdges (λ e es, (es ++ [e], true)) g []).

(** [uuid k] is the identifier the generator hands out if it is asked while the
    [k]-th element of the snapshot is added. *)
Fixpoint import_nodes (uuid : nat → string) (k : nat) (ns : list Node)
    (g : Graph) : Graph :=
  match ns with
  | [] => g
  | n :: ns => import_nodes uuid (S k) ns (AddNode (uuid k) n g)
  end.

Fixpoint import_edges (uuid : nat → string) (k : nat) (es : list Edge)
    (g : Graph) : Graph :=
  match es with
  | [] => g
  | e :: es => import_edges uuid (S k) es (fst (AddEdge (uuid k) e g))
  end.

Definition Import (uuid : nat → string) (exp : Export) (g : Graph)
    : Graph * option error :=
  let g := import_nodes uuid 0 (Nodes exp) g in
  let g := import_edges uuid (length (Nodes exp)) (Edges exp) g in
  (g, None).

(** ** Observations and histories used in the statements *)

(** A callback that records what it is called on and never stops, and one that
    records and asks to stop at once. *)
Definition collect {A} (x : A) (seen : list A) : list A * bool :=
  (seen ++ [x], true).

Definition collect_and_stop {A} (x : A) (seen : list A) : list A * bool :=
  (seen ++ [x], false).

(** What EdgesFrom and EdgesTo enumerate. *)
Definition edges_from (edgeType : string) (id : TypedID) (g : Graph) : list Edge :=
  EdgesFrom edgeType id collect g [].

Definition edges_to (edgeType : string) (id : TypedID) (g : Graph) : list Edge :=
  EdgesTo edgeType id collect g [].

(** The entry of type [ty] and id [i] in the adjacency list of node [k]. *)
Definition adjacent (idx : gmap string (gmap string edgeMap.t)) (k : TypedID)
    (ty i : string) : option Edge :=
  NS.Get (Type_ k) (ID k) idx ≫= edgeMap.lookup_entry ty i.

(** Sequences of structural operations. *)
Inductive op : Type :=
  | OpAddNode (uuid : string) (n : Node)
  | OpAddEdge (uuid : string) (e : Edge)
  | OpDelNode (id : TypedID)
  | OpDelEdge (id : TypedID).

Definition apply_op (o : op) (g : Graph) : Graph :=
  match o with
  | OpAddNode uuid n => AddNode uuid n g
  | OpAddEdge uuid e => fst (AddEdge uuid e g)
  | OpDelNode id => DelNode id g
  | OpDelEdge id => DelEdge id g
  end.

Fixpoint run (ops : list op) (g : Graph) : Graph :=
  match ops with
  | [] => g
  | o :: ops => run ops (apply_op o g)
  end.

(** An AddEdge that succeeds on an edge whose (type, id) is already stored. *)
Definition reuses_key (o : op) (g : Graph) : bool :=
  match o with
  | OpAddEdge uuid e =>
      match snd (AddEdge uuid e g) with
      | None => HasEdge (edge_key (Edge_assign uuid e)) g
      | Some _ => false
      end
  | _ => false
  end.

Fixpoint fresh_keys (ops : list op) (g : Graph) : bool :=
  match ops with
  | [] => true
  | o :: ops => negb (reuses_key o g) && fresh_keys ops (apply_op o g)
  end.

(** The mutual consistency of the edges map and the two adjacency indices:
    a stored edge is listed exactly once on each side, under its own endpoint
    and its own (type, id), and whatever is listed is stored. *)
Definition consistent (g : Graph) : Prop :=
  (∀ id e, GetEdge id g = Some e →
     (∀ k ty i, adjacent (edgesFrom g) k ty i = Some e ↔
                k = From e ∧ ty = edge_type e ∧ i = edge_id e) ∧
     (∀ k ty i, adjacent (edgesTo g) k ty i = Some e ↔
                k = To e ∧ ty = edge_type e ∧ i = edge_id e)) ∧
  (∀ k ty i e,
     adjacent (edgesFrom g) k ty i = Some e ∨ adjacent (edgesTo g) k ty i = Some e →
     ∃ id, GetEdge id g = Some e).

(** The validation failure, as the spec words it: the type, From or To is
    empty. *)
Definition invalid (e : Edge) : Prop :=
  edge_type e = "" ∨ empty_id (From e) = true ∨ empty_id (To e) = true.

(** The not-found failure: an endpoint names no stored node. *)
Definition dangling (e : Edge) (g : Graph) : Prop :=
  HasNode (From e) g = false ∨ HasNode (To e) g = false.

(** ** The claims that the code does not satisfy as they are worded *)

(** DelNode and DelEdge on an id that is not stored leave the graph as it
    is. *)
Definition absent_delete_is_noop (g : Graph) (id : TypedID) : Prop :=
  (HasNode id g = false → DelNode id g = g) ∧
  (HasEdge id g = false → DelEdge id g = g).

(** None of the edges listed in the outbound adjacency list of [id] is stored
    in the edges map. *)
Definition outbound_unstored (id : TypedID) (g : Graph) : bool :=
  forallb (λ '(_, _, e), negb (HasEdge (edge_key e) g))
          (edgeMap.entries (outbound id g)).

(** After DelNode(X): X is no node, and no edge whose From endpoint is X is
    left in the edges map, in what EdgesFrom enumerates for X, or in what
    EdgesTo enumerates for its To endpoint. *)
Definition cascade_complete (g : Graph) (X : TypedID) : Prop :=
  HasNode X (DelNode X g) = false ∧
  ∀ e, From e = X →
    (∀ id, GetEdge id (DelNode X g) ≠ Some e) ∧
    (e ∉ edges_from AnyType X (DelNode X g)) ∧
    (e ∉ edges_to AnyType (To e) (DelNode X g)).

(** ** The graph of the test suite *)

Definition coleman : Node := mkNode "user" "coleman" [("name", "coleman")].
Definition tyler : Node := mkNode "user" "tyler" [("name", "coleman")].
Definition charlie : Node :=
  mkNode "dog" "charlie" [("name", "charlie"); ("weight", "25")].

Definition friend (id : string) (a b : Node) : Edge :=
  mkEdge "friend" id (node_key a) (node_key b) [].

Definition three_nodes : list op :=
  [OpAddNode "n1" coleman; OpAddNode "n2" tyler; OpAddNode "n3" charlie].

(** The same (type, id) added twice, with another To endpoint the second
    time. *)
Definition readd_other_target : list op :=
  three_nodes ++
  [OpAddEdge "e1" (friend "1" coleman tyler);
   OpAddEdge "e2" (friend "1" coleman charlie)].

(** The same (type, id) added with another From endpoint, the first From
    endpoint deleted, and the edge added once more. *)
Definition readd_other_source : list op :=
  three_nodes ++
  [OpAddEdge "e1" (friend "1" coleman tyler);
   OpAddEdge "e2" (friend "1" charlie tyler);
   OpDelNode (node_key coleman);
   OpAddEdge "e3" (friend "1" charlie tyler)].

(** ** Histories of one namespace-partitioned map *)

Inductive map_op (V : Type) : Type :=
  | MSet (namespace key : string) (value : V)
  | MSetAll (namespace : string) (m : gmap string V)
  | MDelete (namespace key : string)
  | MClear (namespace : string).
Arguments MSet {V} namespace key value.
Arguments MSetAll {V} namespace m.
Arguments MDelete {V} namespace key.
Arguments MClear {V} namespace.

Definition apply_map_op {V} (o : map_op V) (n : gmap string (gmap string V))
    : gmap string (gmap string V) :=
  match o with
  | MSet namespace key value => NS.Set_ namespace key value n
  | MSetAll namespace m => NS.SetAll namespace m n
  | MDelete namespace key => NS.Delete namespace key n
  | MClear namespace => NS.Clear namespace n
  end.

Fixpoint run_map {V} (ops : list (map_op V)) (n : gmap string (gmap string V))
    : gmap string (gmap string V) :=
  match ops with
  | [] => n
  | o :: ops => run_map ops (apply_map_op o n)
  end.

(** The operation is a Set or a SetAll on [namespace]. *)
Definition writes_to {V} (namespace : string) (o : map_op V) : bool :=
  match o with
  | MSet ns _ _ | MSetAll ns _ => bool_decide (ns = namespace)
  | MDelete _ _ | MClear _ => false
  end.

Definition never_written {V} (namespace : string) (ops : list (map_op V)) : bool :=
  forallb (λ o, negb (writes_to namespace o)) ops.

(** Two namespaces of strings: the values of "alias" are keys of "user". *)
Definition directory : gmap string (gmap string string) :=
  NS.Set_ "user" "carol" "admin"
    (NS.Set_ "user" "coleman" "owner"
       (NS.Set_ "alias" "carol" "dave"
          (NS.Set_ "alias" "cole" "coleman" NS.newCacheMap))).

(** Two node types and two edge types. *)
Definition friend_and_pet : list op :=
  three_nodes ++
  [OpAddEdge "e1" (friend "1" coleman tyler);
   OpAddEdge "e2" (mkEdge "pet" "2" (node_key coleman) (node_key charlie) [])].

(** Import as the spec words it: after the nodes, AddEdge for every edge in
    snapshot order, an edge whose AddEdge fails being skipped. *)
Fixpoint add_edges_skipping_failures (uuid : nat → string) (k : nat)
    (es : list Edge) (g : Graph) : Graph :=
  match es with
  | [] => g
  | e :: es =>
      match AddEdge (uuid k) e g with
      | (g', None) => add_edges_skipping_failures uuid (S k) es g'
      | (_, Some _) => add_edges_skipping_failures uuid (S k) es g
      end
  end.

(** ** The invariant of the graphs built without adding a stored key again *)

(** Every stored edge is filed under its own (type, id); every listed edge is
    the edge stored under the (type, id) it is listed under, and is listed for
    its own endpoint.  The converse, that a stored edge is listed, is not part
    of it: [edgeMap.DelEdge] takes an id out of the groups of all types. *)
Definition indexed (g : Graph) : Prop :=
  (∀ ty i e, NS.Get ty i (edges g) = Some e →
     edge_type e = ty ∧ edge_id e = i) ∧
  (∀ k ty i e, adjacent (edgesFrom g) k ty i = Some e →
     NS.Get ty i (edges g) = Some e ∧ From e = k) ∧
  (∀ k ty i e, adjacent (edgesTo g) k ty i = Some e →
     NS.Get ty i (edges g) = Some e ∧ To e = k).

(** ** Graphs that Export and Import can round-trip *)

(** Every node and edge the history adds has an id: its own, or a generated one
    that is not empty. *)
Definition assigns_id (o : op) : bool :=
  match o with
  | OpAddNode uuid n => negb (bool_decide (node_id (Node_assign uuid n) = ""))
  | OpAddEdge uuid e => negb (bool_decide (edge_id (Edge_assign uuid e) = ""))
  | OpDelNode _ | OpDelEdge _ => true
  end.

Definition ids_assigned (ops : list op) : bool := forallb assigns_id ops.

(** The endpoints of every stored edge are stored nodes. *)
Definition endpoints_present (g : Graph) : bool :=
  forallb (λ e, HasNode (From e) g && HasNode (To e) g)
          (Edges (Graph_Export g)).

(** Every node and every edge is stored under its own (type, id), the id is
    not empty, and every stored edge passed Validate. *)
Definition keyed (g : Graph) : Prop :=
  (∀ ty i n, NS.Get ty i (nodes g) = Some n →
     node_type n = ty ∧ node_id n = i ∧ i ≠ "") ∧
  (∀ ty i e, NS.Get ty i (edges g) = Some e →
     edge_type e = ty ∧ edge_id e = i ∧ i ≠ "" ∧ ¬ invalid e).

(** What Export returns for the graph of [friend_and_pet], read backwards. *)
Definition friend_and_pet_snapshot : Export :=
  mkExport
    (reverse (Nodes (Graph_Export (run friend_and_pet NewGraphCacheMap))))
    (reverse (Edges (Graph_Export (run friend_and_pet NewGraphCacheMap)))).

(** ** The remaining operations of the graph *)

(** [AddNodes(nodes ...Node)]: AddNode for every node, in order; [uuid k] is
    the identifier the generator hands out if it is asked for the [k]-th
    node. *)
Definition AddNodes (uuid : nat → string) (ns : list Node) (g : Graph) : Graph :=
  import_nodes uuid 0 ns g.

(** [AddEdges(edges ...*Edge)]: AddEdge for every edge, in order, returning
    the first error. *)
Fixpoint AddEdges_from (uuid : nat → string) (k : nat) (es : list Edge)
    (g : Graph) : Graph * option error :=
  match es with
  | [] => (g, None)
  | e :: es =>
      match AddEdge (uuid k) e g with
      | (g, Some err) => (g, Some err)
      | (g, None) => AddEdges_from uuid (S k) es g
      end
  end.

Definition AddEdges (uuid : nat → string) (es : list Edge) (g : Graph)
    : Graph * option error :=
  AddEdges_from uuid 0 es g.

(** ** Close

    [closeOnce.Do] runs its function on the first call only: the map carries
    the flag of its [sync.Once]. *)
Record closable (V : Type) : Type := mkClosable {
  cacheMap : gmap string (gmap string V);
  closeOnce : bool
}.
Arguments mkClosable {V} cacheMap closeOnce.
Arguments cacheMap {V} c.
Arguments closeOnce {V} c.

Definition NS_Close {V} (n : closable V) : closable V :=
  if closeOnce n then n else mkClosable ∅ true.

(** The graph with the four flags of its maps. *)
Record GraphOnce : Type := mkGraphOnce {
  graph : Graph;
  nodes_closed : bool;
  edgesTo_closed : bool;
  edgesFrom_closed : bool;
  edges_closed : bool
}.

Definition Graph_Close (g : GraphOnce) : GraphOnce :=
  let n := NS_Close (mkClosable (nodes (graph g)) (nodes_closed g)) in
  let t := NS_Close (mkClosable (edgesTo (graph g)) (edgesTo_closed g)) in
  let f := NS_Close (mkClosable (edgesFrom (graph g)) (edgesFrom_closed g)) in
  let e := NS_Close (mkClosable (edges (graph g)) (edges_closed g)) in
  mkGraphOnce (mkGraph (cacheMap n) (cacheMap e) (cacheMap f) (cacheMap t))
              (closeOnce n) (closeOnce t) (closeOnce f) (closeOnce e).

(** A graph fresh from NewGraphCacheMap: no map was closed. *)
Definition open_graph (g : Graph) : GraphOnce := mkGraphOnce g false false false false.

(** Any operation on the graph between two calls of Close. *)
Definition Graph_update (f : Graph → Graph) (g : GraphOnce) : GraphOnce :=
  mkGraphOnce (f (graph g)) (nodes_closed g) (edgesTo_closed g)
              (edgesFrom_closed g) (edges_closed g).

(** What a callback that stops as soon as [keep] fails is called on: the
    entries up to and including the first one that [keep] rejects. *)
Fixpoint until_stop {A} (keep : A → bool) (l : list A) : list A :=
  match l with
  | [] => []
  | x :: l => if keep x then x :: until_stop keep l else [x]
  end.

(** A callback that records the entry it is given and goes on while [keep]
    accepts it. *)
Definition record_while {K V} (keep : K * V → bool) : callback K V (list (K * V)) :=
  λ k v seen, (seen ++ [(k, v)], keep (k, v)).

(** ** Intersection, as C10 words it *)

(** What Load makes of the values stored in the examples: a string is a
    string, a Node is a Go map. *)
Definition string_view (s : string) : key_view := StringKey s.

Definition Node_view (n : Node) : key_view := Unhashable.

(** Intersection returns a container, and the container holds exactly the
    entries of the first namespace whose value is a key of the second. *)
Definition Intersection_returns_matches {V} (view : V → key_view)
    (n : gmap string (gmap string V)) (namespace1 namespace2 : string) : Prop :=
  ∃ m, NS.Intersection view namespace1 namespace2 n = Ret m ∧
       ∀ k v, m !! k = Some v ↔
              NS.Get namespace1 k n = Some v ∧
              ∃ s, view v = StringKey s ∧ is_Some (NS.Get namespace2 s n).

(** * Properties *)

(** ** The namespace-partitioned map as a two-level finite map *)

Section ns_lemmas.
Context {V : Type}.
Implicit Types n : gmap string (gmap string V).

Lemma NS_Get_Set ns k v ns' k' n :
  NS.Get ns' k' (NS.Set_ ns k v n) =
  if decide (ns = ns' ∧ k = k') then Some v else NS.Get ns' k' n.
Proof.
  unfold NS.Get, NS.Set_, SyncCache.Get, SyncCache.Set_.
  destruct (n !! ns) as [c|] eqn:Hns.
  - rewrite Hns. rewrite lookup_insert.
    destruct (decide (ns = ns')) as [<-|Hne].
    + rewrite Hns, lookup_insert.
      destruct (decide (k = k')); case_decide; naive_solver.
    + case_decide; naive_solver.
  - rewrite lookup_insert_eq. rewrite !lookup_insert.
    destruct (decide (ns = ns')) as [<-|Hne].
    + rewrite Hns, lookup_insert, lookup_empty.
      destruct (decide (k = k')); case_decide; naive_solver.
    + case_decide; naive_solver.
Qed.

Lemma NS_Get_Set_eq ns k v n : NS.Get ns k (NS.Set_ ns k v n) = Some v.
Proof. rewrite NS_Get_Set. case_decide; naive_solver. Qed.

Lemma NS_Get_Set_ne ns k v ns' k' n :
  (ns, k) ≠ (ns', k') → NS.Get ns' k' (NS.Set_ ns k v n) = NS.Get ns' k' n.
Proof. intros Hne. rewrite NS_Get_Set. case_decide; naive_solver. Qed.

Lemma NS_Get_Delete ns k ns' k' n :
  NS.Get ns' k' (NS.Delete ns k n) =
  if decide (ns = ns' ∧ k = k') then None else NS.Get ns' k' n.
Proof.
  unfold NS.Get, NS.Delete, SyncCache.Get, SyncCache.Delete.
  destruct (n !! ns) as [c|] eqn:Hns.
  - rewrite lookup_insert.
    destruct (decide (ns = ns')) as [<-|Hne].
    + rewrite Hns, lookup_delete.
      destruct (decide (k = k')); case_decide; naive_solver.
    + case_decide; naive_solver.
  - case_decide as Heq; [|done]. destruct Heq as [<- <-]. by rewrite Hns.
Qed.

Lemma NS_Delete_absent ns k n : NS.Get ns k n = None → NS.Delete ns k n = n.
Proof.
  unfold NS.Get, NS.Delete, SyncCache.Get, SyncCache.Delete.
  destruct (n !! ns) as [c|] eqn:Hns; [|done].
  intros Hk. rewrite delete_id by done. by apply insert_id.
Qed.

Lemma NS_Get_empty ns k : NS.Get ns k (NS.newCacheMap (V:=V)) = None.
Proof. unfold NS.Get, NS.newCacheMap. by rewrite lookup_empty. Qed.
End ns_lemmas.

(** ** Ranging with a recording callback *)

Lemma range_entries_collect {K V A} (h : K → V → A) (l : list (K * V)) (s : list A) :
  range_entries (λ k v s, collect (h k v) s) l s = (s ++ ((λ kv, h kv.1 kv.2) <$> l), true).
Proof.
  revert s. induction l as [|[k v] l IH]; intros s; simpl.
  - by rewrite app_nil_r.
  - rewrite IH. by rewrite <-app_assoc.
Qed.

Lemma range_entries_accumulate {K V S} (step : K → V → S → S) (l : list (K * V)) (s : S) :
  range_entries (λ k v s, (step k v s, true)) l s =
  (foldl (λ s kv, step kv.1 kv.2 s) s l, true).
Proof.
  revert s. induction l as [|[k v] l IH]; intros s; simpl; [done|]. by rewrite IH.
Qed.

(** ** The adjacency list *)

Lemma lookup_entry_AddEdge ty i e (m : edgeMap.t) :
  edgeMap.lookup_entry ty i (edgeMap.AddEdge e m) =
  if decide (ty = edge_type e ∧ i = edge_id e) then Some e
  else edgeMap.lookup_entry ty i m.
Proof.
  unfold edgeMap.lookup_entry, edgeMap.AddEdge.
  rewrite lookup_insert.
  destruct (decide (edge_type e = ty)) as [<-|Hty]; simpl.
  - rewrite lookup_insert.
    destruct (decide (edge_id e = i)) as [<-|Hi].
    + by rewrite decide_True.
    + rewrite decide_False by naive_solver.
      destruct (m !! edge_type e); simpl; [done|]. by rewrite lookup_empty.
  - by rewrite decide_False by naive_solver.
Qed.

Lemma lookup_entry_DelEdge ty i id (m : edgeMap.t) :
  edgeMap.lookup_entry ty i (edgeMap.DelEdge id m) =
  if decide (i = ID id) then None else edgeMap.lookup_entry ty i m.
Proof.
  unfold edgeMap.lookup_entry, edgeMap.DelEdge.
  rewrite lookup_fmap.
  destruct (m !! ty) as [group|]; simpl.
  - destruct (decide (i = ID id)) as [->|Hi].
    + by rewrite lookup_delete_eq.
    + by rewrite lookup_delete_ne.
  - by destruct (decide (i = ID id)).
Qed.

Lemma lookup_entry_empty ty i : edgeMap.lookup_entry ty i edgeMap.empty = None.
Proof. unfold edgeMap.lookup_entry, edgeMap.empty. by rewrite lookup_empty. Qed.

Lemma elem_of_entries ty i e (m : edgeMap.t) :
  (ty, i, e) ∈ edgeMap.entries m ↔ edgeMap.lookup_entry ty i m = Some e.
Proof.
  unfold edgeMap.entries, edgeMap.lookup_entry.
  rewrite list_elem_of_bind. split.
  - intros [[ty' group] [Hin Hgroup]].
    apply list_elem_of_fmap in Hin as [[i' e'] [Heq Hin]].
    simplify_eq. apply elem_of_map_to_list in Hgroup, Hin.
    by rewrite Hgroup.
  - destruct (m !! ty) as [group|] eqn:Hgroup; simpl; [|done].
    intros Hi. exists (ty, group). split.
    + apply list_elem_of_fmap. exists (i, e). split; [done|].
      by apply elem_of_map_to_list.
    + by apply elem_of_map_to_list.
Qed.

Lemma elem_of_RangeType_collect typ e (m : edgeMap.t) :
  e ∈ edgeMap.RangeType typ collect m [] ↔
  ∃ ty i, (typ = AnyType ∨ typ = ty) ∧ edgeMap.lookup_entry ty i m = Some e.
Proof.
  unfold edgeMap.RangeType.
  destruct (decide (typ = AnyType)) as [->|Hany].
  - rewrite (range_entries_collect (λ _ e, e)). simpl.
    rewrite list_elem_of_fmap. split.
    + intros [[[ty i] e'] [-> Hin]]. exists ty, i.
      split; [by left|]. by apply elem_of_entries.
    + intros (ty & i & _ & Hin). exists (ty, i, e).
      split; [done|]. by apply elem_of_entries.
  - unfold edgeMap.lookup_entry. split.
    + destruct (m !! typ) as [group|] eqn:Hgroup; [|by intros ?%elem_of_nil].
      rewrite (range_entries_collect (λ _ e, e)). simpl.
      intros [[i e'] [-> Hin]]%list_elem_of_fmap.
      exists typ, i. split; [by right|].
      rewrite Hgroup. simpl. by apply elem_of_map_to_list.
    + intros (ty & i & [?| <-] & Hin); [done|].
      destruct (m !! typ) as [group|]; simpl in Hin; [|done].
      rewrite (range_entries_collect (λ _ e, e)). simpl.
      apply list_elem_of_fmap. exists (i, e). split; [done|].
      by apply elem_of_map_to_list.
Qed.

Lemma adjacent_Set (idx : gmap string (gmap string edgeMap.t)) kt kid m k ty i :
  adjacent (NS.Set_ kt kid m idx) k ty i =
  if decide (k = mkTypedID kt kid) then edgeMap.lookup_entry ty i m
  else adjacent idx k ty i.
Proof.
  unfold adjacent. rewrite NS_Get_Set. destruct k as [kt' kid']; simpl.
  destruct (decide (kt = kt' ∧ kid = kid')) as [[-> ->]|Hne].
  - by rewrite decide_True.
  - by rewrite decide_False by naive_solver.
Qed.

Lemma TypedID_eta (k : TypedID) : mkTypedID (Type_ k) (ID k) = k.
Proof. by destruct k. Qed.

(** ** AddEdge: when it fails, and what a failure leaves behind *)

Lemma Validate_None e : Validate e = None ↔ ¬ invalid e.
Proof.
  unfold Validate, invalid.
  destruct (bool_decide_reflect (edge_type e = "")); [naive_solver|].
  destruct (empty_id (From e)); [naive_solver|].
  destruct (empty_id (To e)); naive_solver.
Qed.

Lemma Validate_Some e err :
  Validate e = Some err → invalid e ∧ ∃ field, err = ValidationError field.
Proof.
  unfold Validate, invalid.
  destruct (bool_decide_reflect (edge_type e = "")); [naive_solver|].
  destruct (empty_id (From e)); [naive_solver|].
  destruct (empty_id (To e)); naive_solver.
Qed.

Lemma Edge_assign_type uuid e : edge_type (Edge_assign uuid e) = edge_type e.
Proof. unfold Edge_assign. by case_bool_decide. Qed.

Lemma Edge_assign_From uuid e : From (Edge_assign uuid e) = From e.
Proof. unfold Edge_assign. by case_bool_decide. Qed.

Lemma Edge_assign_To uuid e : To (Edge_assign uuid e) = To e.
Proof. unfold Edge_assign. by case_bool_decide. Qed.

Lemma invalid_assign uuid e : invalid (Edge_assign uuid e) ↔ invalid e.
Proof.
  unfold invalid.
  by rewrite Edge_assign_type, Edge_assign_From, Edge_assign_To.
Qed.

Lemma dangling_assign uuid e g : dangling (Edge_assign uuid e) g ↔ dangling e g.
Proof. unfold dangling. by rewrite Edge_assign_From, Edge_assign_To. Qed.

(** The three ways AddEdge can end. *)
Lemma AddEdge_cases uuid e g :
  let e' := Edge_assign uuid e in
  (invalid e ∧ (∃ field, snd (AddEdge uuid e g) = Some (ValidationError field)) ∧
     fst (AddEdge uuid e g) = g) ∨
  (¬ invalid e ∧ dangling e g ∧
     (∃ id, snd (AddEdge uuid e g) = Some (NotFoundError id)) ∧
     fst (AddEdge uuid e g) = g) ∨
  (¬ invalid e ∧ ¬ dangling e g ∧ snd (AddEdge uuid e g) = None ∧
     nodes (fst (AddEdge uuid e g)) = nodes g ∧
     edges (fst (AddEdge uuid e g)) =
       NS.Set_ (edge_type e') (edge_id e') e' (edges g) ∧
     edgesFrom (fst (AddEdge uuid e g)) =
       NS.Set_ (Type_ (From e')) (ID (From e'))
         (edgeMap.AddEdge e'
            (default edgeMap.empty
               (NS.Get (Type_ (From e')) (ID (From e')) (edgesFrom g))))
         (edgesFrom g) ∧
     edgesTo (fst (AddEdge uuid e g)) =
       NS.Set_ (Type_ (To e')) (ID (To e'))
         (edgeMap.AddEdge e'
            (default edgeMap.empty
               (NS.Get (Type_ (To e')) (ID (To e')) (edgesTo g))))
         (edgesTo g)).
Proof.
  intros e'.
  pose proof (invalid_assign uuid e) as Hinv.
  pose proof (dangling_assign uuid e g) as Hdang.
  unfold AddEdge. fold e' in Hinv, Hdang |- *. cbv zeta. fold e'.
  destruct (Validate e') as [err|] eqn:Hval.
  - left. apply Validate_Some in Hval as [Hinv' [field ->]]. simpl.
    split; [by apply Hinv|]. eauto.
  - right. apply Validate_None in Hval. rewrite Hinv in Hval.
    destruct (HasNode (From e') g) eqn:Hfrom; simpl.
    + destruct (HasNode (To e') g) eqn:Hto; simpl.
      * right. split; [done|]. split.
        { rewrite <-Hdang. unfold dangling. rewrite Hfrom, Hto. naive_solver. }
        split; [done|]. cbn [nodes edges edgesFrom edgesTo].
        destruct (NS.Get (Type_ (From e')) (ID (From e')) (edgesFrom g));
          cbn [nodes edges edgesFrom edgesTo];
          destruct (NS.Get (Type_ (To e')) (ID (To e')) (edgesTo g)); done.
      * left. split; [done|]. split; [|by eauto].
        apply Hdang. by right.
    + left. split; [done|]. split; [|by eauto].
      apply Hdang. by left.
Qed.

(** C1. AddEdge returns an error exactly when the edge's type, From or To is
    empty (then a validation error) or an endpoint names no stored node (then,
    for a valid edge, a not-found error); and after an error the nodes, the
    edges map and both adjacency indices are what they were. *)
Theorem AddEdge_error_iff_invalid_or_dangling uuid e g :
  ((∃ field, snd (AddEdge uuid e g) = Some (ValidationError field)) ↔ invalid e) ∧
  ((∃ id, snd (AddEdge uuid e g) = Some (NotFoundError id)) ↔
     ¬ invalid e ∧ dangling e g) ∧
  (is_Some (snd (AddEdge uuid e g)) ↔ invalid e ∨ dangling e g) ∧
  (is_Some (snd (AddEdge uuid e g)) →
     edges (fst (AddEdge uuid e g)) = edges g ∧
     edgesFrom (fst (AddEdge uuid e g)) = edgesFrom g ∧
     edgesTo (fst (AddEdge uuid e g)) = edgesTo g ∧
     nodes (fst (AddEdge uuid e g)) = nodes g).
Proof.
  destruct (AddEdge_cases uuid e g)
    as [(Hinv & [field Herr] & Hg)|[(Hinv & Hdang & [id Herr] & Hg)
       |(Hinv & Hdang & Herr & _)]];
    rewrite Herr; repeat split;
    try (rewrite Hg); try done; try naive_solver.
Qed.

(** ** Deleting what is not stored *)

Lemma Graph_eta g : mkGraph (nodes g) (edges g) (edgesFrom g) (edgesTo g) = g.
Proof. by destruct g. Qed.

Lemma HasEdge_false id g : HasEdge id g = false ↔ GetEdge id g = None.
Proof. unfold HasEdge. destruct (GetEdge id g); naive_solver. Qed.

Lemma HasNode_false id g : HasNode id g = false ↔ GetNode id g = None.
Proof. unfold HasNode. destruct (GetNode id g); naive_solver. Qed.

Lemma HasEdge_true id g : HasEdge id g = true ↔ is_Some (GetEdge id g).
Proof. unfold HasEdge, is_Some. destruct (GetEdge id g); naive_solver. Qed.

Lemma HasNode_true id g : HasNode id g = true ↔ is_Some (GetNode id g).
Proof. unfold HasNode, is_Some. destruct (GetNode id g); naive_solver. Qed.

Lemma DelEdge_absent id g : GetEdge id g = None → DelEdge id g = g.
Proof.
  unfold GetEdge, DelEdge. intros Hget. rewrite Hget.
  rewrite NS_Delete_absent by done. apply Graph_eta.
Qed.

(** A range whose callback changes nothing leaves the state as it was. *)
Lemma edgeMap_Range_fixed {S} (live : S → edgeMap.t) (fn : Edge → S → S)
    (m : edgeMap.t) (s : S) :
  (∀ ty i e, (ty, i, e) ∈ edgeMap.entries m → fn e s = s) →
  edgeMap.Range live fn m s = s.
Proof.
  unfold edgeMap.Range. induction (edgeMap.entries m) as [|[[ty i] e] l IH];
    intros Hfix; simpl; [done|].
  assert (fn e s = s) as Hs by (eapply Hfix; left).
  destruct (edgeMap.lookup_entry ty i (live s)); rewrite ?Hs;
    apply IH; intros; eapply Hfix; by right.
Qed.

(** A range keeps whatever every call of its callback keeps. *)
Lemma edgeMap_Range_preserves {S} (P : S → Prop) (live : S → edgeMap.t)
    (fn : Edge → S → S) (m : edgeMap.t) (s : S) :
  (∀ e s, P s → P (fn e s)) → P s → P (edgeMap.Range live fn m s).
Proof.
  intros Hfn. unfold edgeMap.Range. revert s.
  induction (edgeMap.entries m) as [|[[ty i] e] l IH]; intros s Hs; simpl;
    [done|].
  apply IH. destruct (edgeMap.lookup_entry ty i (live s)); auto.
Qed.

Lemma nodes_DelEdge id g : nodes (DelEdge id g) = nodes g.
Proof.
  unfold DelEdge. cbn [nodes].
  destruct (NS.Get (Type_ id) (ID id) (edges g)) as [edge|]; [|done].
  destruct (NS.Get (Type_ (From edge)) (ID (From edge)) (edgesFrom g));
    cbn [nodes edges edgesFrom edgesTo];
    destruct (NS.Get (Type_ (To edge)) (ID (To edge)) (edgesTo g)); done.
Qed.

Lemma nodes_DelNode id g :
  nodes (DelNode id g) = NS.Delete (Type_ id) (ID id) (nodes g).
Proof.
  unfold DelNode. cbn [nodes]. f_equal.
  destruct (NS.Get (Type_ id) (ID id) (edgesFrom g)) as [es|]; [|done].
  apply (edgeMap_Range_preserves (λ s, nodes s = nodes g)); [|done].
  intros e s Hs. by rewrite nodes_DelEdge.
Qed.

Lemma DelNode_absent id g :
  GetNode id g = None → outbound_unstored id g = true → DelNode id g = g.
Proof.
  unfold GetNode, outbound_unstored, outbound, DelNode. intros Hnode Hout.
  destruct (NS.Get (Type_ id) (ID id) (edgesFrom g)) as [es|]; simpl in Hout.
  - rewrite edgeMap_Range_fixed.
    + rewrite NS_Delete_absent by done. apply Graph_eta.
    + intros ty i e Hin. rewrite forallb_forall in Hout.
      apply list_elem_of_In, Hout in Hin. apply negb_true_iff in Hin.
      by apply DelEdge_absent, HasEdge_false.
  - rewrite NS_Delete_absent by done. apply Graph_eta.
Qed.

(** What deleting an id that is not stored does leave as it is.  DelEdge leaves
    the four indices; DelNode leaves the nodes, and the three other indices
    too when none of the edges listed in the outbound adjacency list of the id
    is stored in the edges map (so when the list is empty or missing).
    Neither returns an error: they return the graph only. *)
Theorem delete_absent_unlisted_is_noop g id :
  (HasEdge id g = false → DelEdge id g = g) ∧
  (HasNode id g = false → nodes (DelNode id g) = nodes g) ∧
  (HasNode id g = false → outbound_unstored id g = true → DelNode id g = g).
Proof.
  split; [|split].
  - intros Hid. by apply DelEdge_absent, HasEdge_false.
  - intros Hid%HasNode_false. rewrite nodes_DelNode.
    by apply NS_Delete_absent.
  - intros Hid%HasNode_false Hout. by apply DelNode_absent.
Qed.

(** C7 fails on the code. friend.1 is added from coleman to tyler and then
    again from charlie to tyler; AddEdge leaves the replaced edge in the
    outbound list of coleman, and DelNode(coleman) does not clear that list.
    coleman is no node any more, his outbound list still names friend.1, which
    is stored again between charlie and tyler, and DelNode(coleman), which
    does not look whether coleman is a node, deletes that edge. *)
Lemma DelNode_absent_deletes_readded_edge :
  ¬ absent_delete_is_noop (run readd_other_source NewGraphCacheMap)
      (node_key coleman).
Proof.
  intros [Hnode _].
  assert (HasNode (node_key coleman) (run readd_other_source NewGraphCacheMap)
          = false) as Habsent by (vm_compute; reflexivity).
  apply Hnode in Habsent.
  assert (NS.Len "friend"
            (edges (DelNode (node_key coleman)
                      (run readd_other_source NewGraphCacheMap))) = 0)
    as Hafter by (vm_compute; reflexivity).
  rewrite Habsent in Hafter. vm_compute in Hafter. discriminate.
Qed.

(** ** A namespace that was never written to *)

Lemma apply_map_op_absent {V} (o : map_op V) namespace
    (n : gmap string (gmap string V)) :
  writes_to namespace o = false → n !! namespace = None →
  apply_map_op o n !! namespace = None.
Proof.
  destruct o as [ns k v|ns m|ns k|ns]; simpl; intros Hw Hn.
  - apply bool_decide_eq_false in Hw. unfold NS.Set_.
    destruct (n !! ns) as [c|] eqn:Hns.
    + rewrite Hns. by rewrite lookup_insert_ne.
    + rewrite lookup_insert_eq. by rewrite !lookup_insert_ne.
  - apply bool_decide_eq_false in Hw. unfold NS.SetAll.
    destruct (n !! ns) as [c|] eqn:Hns.
    + rewrite Hns. by rewrite lookup_insert_ne.
    + rewrite lookup_insert_eq. by rewrite !lookup_insert_ne.
  - unfold NS.Delete. destruct (n !! ns) as [c|] eqn:Hns; [|done].
    rewrite lookup_insert_ne; [done|]. congruence.
  - unfold NS.Clear. destruct (n !! ns) as [c|] eqn:Hns; [|done].
    rewrite lookup_insert_ne; [done|]. congruence.
Qed.

Lemma never_written_absent {V} (ops : list (map_op V)) namespace
    (n : gmap string (gmap string V)) :
  never_written namespace ops = true → n !! namespace = None →
  run_map ops n !! namespace = None.
Proof.
  revert n. induction ops as [|o ops IH]; intros n Hnever Hn; simpl; [done|].
  simpl in Hnever. apply andb_true_iff in Hnever as [Ho Hnever].
  apply negb_true_iff in Ho. apply IH; [done|]. by apply apply_map_op_absent.
Qed.

(** What each operation does on a namespace that has no sub-map. *)
Lemma absent_namespace {V} (n : gmap string (gmap string V)) namespace key :
  n !! namespace = None →
  NS.Exists namespace key n = NilDereference ∧
  NS.Map namespace n = NilDereference ∧
  NS.Get namespace key n = None ∧
  NS.Len namespace n = 0 ∧
  NS.Delete namespace key n = n ∧
  (namespace ≠ AnyType →
   ∀ S (f : callback string V S) (s : S), NS.Range namespace f n s = s).
Proof.
  intros Hn. unfold NS.Exists, NS.Map, NS.Get, NS.Len, NS.Delete, NS.Range.
  rewrite Hn. repeat split; try done.
  intros Hany S f s. by rewrite decide_False.
Qed.

(** C9. On a namespace that no Set and no SetAll ever wrote to, Exists and Map
    dereference the missing sub-map and crash, whereas Get finds nothing, Len
    is 0, Delete changes nothing and Range (of a named namespace) calls its
    callback on nothing. *)
Theorem Exists_and_Map_crash_on_unwritten_namespace {V}
    (ops : list (map_op V)) (namespace key : string) :
  never_written namespace ops = true →
  NS.Exists namespace key (run_map ops NS.newCacheMap) = NilDereference ∧
  NS.Map namespace (run_map ops NS.newCacheMap) = NilDereference ∧
  NS.Get namespace key (run_map ops NS.newCacheMap) = None ∧
  NS.Len namespace (run_map ops NS.newCacheMap) = 0 ∧
  NS.Delete namespace key (run_map ops NS.newCacheMap)
    = run_map ops NS.newCacheMap ∧
  (namespace ≠ AnyType →
   ∀ S (f : callback string V S) (s : S),
     NS.Range namespace f (run_map ops NS.newCacheMap) s = s).
Proof.
  intros Hnever. apply absent_namespace.
  by apply never_written_absent; [|apply lookup_empty].
Qed.

Lemma Exists_and_Map_crash_on_unwritten_namespace_witness :
  NS.Exists "dog" "charlie"
    (run_map [MSet "user" "coleman" 1; MDelete "dog" "charlie"; MClear "dog"]
       NS.newCacheMap) = NilDereference ∧
  NS.Map "dog"
    (run_map [MSet "user" "coleman" 1; MDelete "dog" "charlie"; MClear "dog"]
       NS.newCacheMap) = NilDereference ∧
  NS.Get "dog" "charlie"
    (run_map [MSet "user" "coleman" 1; MDelete "dog" "charlie"; MClear "dog"]
       NS.newCacheMap) = None.
Proof.
  destruct (Exists_and_Map_crash_on_unwritten_namespace
              [MSet "user" "coleman" 1; MDelete "dog" "charlie"; MClear "dog"]
              "dog" "charlie") as (HExists & HMap & HGet & _).
  - reflexivity.
  - exact (conj HExists (conj HMap HGet)).
Defined.

(** ** Intersection *)

(** A range that stores the entries a test accepts builds the sub-map of those
    entries. *)
Lemma foldl_insert_accepted {V} (accept : string * V → bool)
    (l : list (string * V)) (data : gmap string V) (k : string) :
  NoDup l.*1 →
  foldl (λ data kv, if accept kv then <[kv.1 := kv.2]> data else data) data l !! k
  = match list_find (λ kv, kv.1 = k ∧ accept kv = true) l with
    | Some (_, kv) => Some kv.2
    | None => data !! k
    end.
Proof.
  revert data. induction l as [|[k' v'] l IH]; intros data Hnodup; simpl; [done|].
  apply NoDup_cons in Hnodup as [Hk' Hnodup]. rewrite IH by done.
  case_decide as Hhead; simpl in Hhead.
  - destruct Hhead as [-> Haccept]. rewrite Haccept. simpl.
    destruct (list_find _ l) as [[j [k2 v2]]|] eqn:Hfind; simpl.
    + apply list_find_Some in Hfind as (Hj & [Hk2 _] & _). simpl in Hk2.
      subst k2. destruct Hk'. apply list_elem_of_fmap.
      exists (k, v2). split; [done|]. by eapply list_elem_of_lookup_2.
    + by rewrite lookup_insert_eq.
  - destruct (list_find _ l) as [[j kv]|] eqn:Hfind; simpl; [done|].
    destruct (accept (k', v')) eqn:Haccept; simpl; [|done].
    rewrite lookup_insert_ne; [done|]. naive_solver.
Qed.

Lemma SyncCache_Range_accepted {V} (accept : string → V → bool)
    (c : gmap string V) (k : string) (v : V) :
  SyncCache.Range
    (λ k v (data : gmap string V),
       (if accept k v then <[k := v]> data else data, true)) c ∅ !! k
  = Some v ↔ c !! k = Some v ∧ accept k v = true.
Proof.
  unfold SyncCache.Range.
  rewrite (range_entries_accumulate
             (λ k v data, if accept k v then <[k := v]> data else data)).
  simpl.
  rewrite (foldl_insert_accepted (λ kv, accept kv.1 kv.2))
    by apply NoDup_fst_map_to_list.
  destruct (list_find _ (map_to_list c)) as [[j [k2 v2]]|] eqn:Hfind; simpl.
  - apply list_find_Some in Hfind as (Hj & [Hk2 Haccept] & _).
    simpl in Hk2, Haccept. subst k2.
    apply list_elem_of_lookup_2, elem_of_map_to_list in Hj.
    split; [intros [= ->]; done|]. intros [Hc _]. congruence.
  - rewrite lookup_empty. split; [done|]. intros [Hc Haccept].
    apply list_find_None in Hfind. rewrite Forall_forall in Hfind.
    destruct (Hfind (k, v)); [|done]. by apply elem_of_map_to_list.
Qed.

(** The callback of Intersection, run over entries whose values can all be
    hashed, stores the entries whose value is a key of the other cache. *)
Lemma Intersection_range_hashable {V} (view : V → key_view)
    (other : gmap string V) (l : list (string * V)) (data : gmap string V) :
  Forall (λ kv, view kv.2 ≠ Unhashable) l →
  range_entries (SyncCache.store_if_key view other) l (Ret data)
  = (Ret (foldl (λ data kv,
                   if match view kv.2 with
                      | StringKey s => SyncCache.Exists s other
                      | OtherComparable | Unhashable => false
                      end
                   then <[kv.1 := kv.2]> data else data) data l), true).
Proof.
  revert data. induction l as [|[k v] l IH]; intros data Hl;
    cbn [range_entries foldl]; [done|].
  apply Forall_cons in Hl as [Hv Hl]. simpl in Hv.
  unfold SyncCache.store_if_key at 1, SyncCache.ExistsValue.
  destruct (view v) as [s| |] eqn:Hview; [..|done];
    cbn; rewrite IH by done; cbn; by rewrite Hview.
Qed.

(** One value that cannot be hashed makes the whole Intersection panic. *)
Lemma Intersection_range_unhashable {V} (view : V → key_view)
    (other : gmap string V) (l : list (string * V)) (data : gmap string V) :
  Exists (λ kv, view kv.2 = Unhashable) l →
  fst (range_entries (SyncCache.store_if_key view other) l (Ret data))
  = UnhashableKey.
Proof.
  revert data. induction l as [|[k v] l IH]; intros data Hl;
    [by apply Exists_nil in Hl|]. cbn [range_entries].
  unfold SyncCache.store_if_key at 1, SyncCache.ExistsValue.
  destruct (view v) as [s| |] eqn:Hview; cbn; [..|done].
  - apply IH. apply Exists_cons in Hl as [Hv|?]; [|done]. simpl in Hv. congruence.
  - apply IH. apply Exists_cons in Hl as [Hv|?]; [|done]. simpl in Hv. congruence.
Qed.

(** C10, as the code has it. For two existing namespaces: when the first
    holds only values that can be hashed, Intersection returns exactly the
    entries (k, v) of the first whose VALUE v is a KEY of the second, and the
    key k is never looked up in the second namespace; when the first holds a
    value that cannot be hashed, Intersection panics. *)
Theorem Intersection_keeps_values_that_are_keys {V} (view : V → key_view)
    (n : gmap string (gmap string V)) (namespace1 namespace2 : string)
    (c1 c2 : gmap string V) :
  n !! namespace1 = Some c1 → n !! namespace2 = Some c2 →
  ((∀ k v, c1 !! k = Some v → view v ≠ Unhashable) →
     Intersection_returns_matches view n namespace1 namespace2) ∧
  ((∃ k v, c1 !! k = Some v ∧ view v = Unhashable) →
     NS.Intersection view namespace1 namespace2 n = UnhashableKey).
Proof.
  intros Hc1 Hc2. split.
  - intros Hhash. unfold Intersection_returns_matches.
    unfold NS.Intersection, SyncCache.Intersection, NS.Get, SyncCache.Get.
    rewrite Hc1, Hc2. unfold SyncCache.Range at 1.
    rewrite Intersection_range_hashable.
    2:{ apply Forall_forall. intros [k v] Hin%elem_of_map_to_list.
        by eapply Hhash. }
    eexists. split; [done|]. intros k v. cbn [fst].
    pose proof (SyncCache_Range_accepted
                  (λ _ v, match view v with
                          | StringKey s => SyncCache.Exists s c2
                          | OtherComparable | Unhashable => false
                          end) c1 k v) as Hacc.
    unfold SyncCache.Range in Hacc.
    rewrite (range_entries_accumulate
               (λ k v (data : gmap string V),
                  if match view v with
                     | StringKey s => SyncCache.Exists s c2
                     | OtherComparable | Unhashable => false
                     end
                  then <[k := v]> data else data)) in Hacc.
    simpl in Hacc. rewrite Hacc. clear Hacc.
    unfold SyncCache.Exists, SyncCache.Get, is_Some.
    destruct (view v) as [s| |].
    + destruct (c2 !! s) as [x|] eqn:Hs.
      * split; [|by intros [? _]]. intros [Hk _]. split; [done|].
        exists s. split; [done|]. by exists x.
      * split; [by intros [_ ?]|]. intros [_ (s' & [= <-] & [x Hx])]. congruence.
    + split; [by intros [_ ?]|]. by intros [_ (s' & ? & _)].
    + split; [by intros [_ ?]|]. by intros [_ (s' & ? & _)].
  - intros (k & v & Hk & Hv). unfold NS.Intersection, SyncCache.Intersection.
    rewrite Hc1, Hc2. unfold SyncCache.Range.
    apply Intersection_range_unhashable, Exists_exists.
    exists (k, v). split; [|done]. by apply elem_of_map_to_list.
Qed.

Lemma directory_alias :
  directory !! "alias" = Some {["carol" := "dave"; "cole" := "coleman"]}.
Proof. vm_compute. reflexivity. Qed.

Lemma directory_user :
  directory !! "user" = Some {["carol" := "admin"; "coleman" := "owner"]}.
Proof. vm_compute. reflexivity. Qed.

Lemma Intersection_keeps_values_that_are_keys_witness :
  Intersection_returns_matches string_view directory "alias" "user".
Proof.
  apply (Intersection_keeps_values_that_are_keys string_view directory
           "alias" "user" _ _ directory_alias directory_user).
  intros k v _. discriminate.
Defined.

(** What the witness comes to: the entry cole -> coleman of "alias" is
    returned although "user" has no key cole, and carol, a key of both
    namespaces, is not. *)
Lemma directory_Intersection :
  NS.Intersection string_view "alias" "user" directory
  = Ret {["cole" := "coleman"]}.
Proof. vm_compute. reflexivity. Qed.

Lemma three_nodes_Intersection :
  NS.Intersection Node_view "user" "dog" (nodes (run three_nodes NewGraphCacheMap))
  = UnhashableKey.
Proof. vm_compute. reflexivity. Qed.

(** C10, as it is worded, fails: the nodes of a graph are Go maps.  The
    namespaces "user" and "dog" of the nodes index both exist, and
    Intersection panics while it hashes the first node instead of returning
    a container. *)
Lemma Intersection_panics_on_the_nodes_index :
  ¬ Intersection_returns_matches Node_view
      (nodes (run three_nodes NewGraphCacheMap)) "user" "dog".
Proof.
  intros [m [Hm _]]. rewrite three_nodes_Intersection in Hm. discriminate Hm.
Qed.

(** ** Stopping an iteration over all entries *)

(** C5 fails on the code. The callback answers "stop" on the first entry it is
    given; RangeNodes, RangeEdges and the wildcard Range call it once more, on
    an entry of the next namespace: the answer ends the pass over one
    namespace only. *)
Theorem stop_ends_one_namespace_only :
  RangeNodes collect_and_stop (run friend_and_pet NewGraphCacheMap) []
    = [coleman; charlie] ∧
  RangeEdges collect_and_stop (run friend_and_pet NewGraphCacheMap) []
    = [friend "1" coleman tyler;
       mkEdge "pet" "2" (node_key coleman) (node_key charlie) []] ∧
  NS.Range AnyType (λ _ n seen, collect_and_stop n seen)
    (nodes (run friend_and_pet NewGraphCacheMap)) []
    = [coleman; charlie].
Proof. repeat split; vm_compute; reflexivity. Qed.

(** ** AddEdge: what a success stores *)

Lemma elem_of_edges_from edgeType id g e :
  e ∈ edges_from edgeType id g ↔
  ∃ ty i, (edgeType = AnyType ∨ edgeType = ty) ∧
          adjacent (edgesFrom g) id ty i = Some e.
Proof.
  unfold edges_from, EdgesFrom, adjacent.
  destruct (NS.Get (Type_ id) (ID id) (edgesFrom g)) as [es|]; simpl.
  - apply elem_of_RangeType_collect.
  - split; [by intros ?%elem_of_nil|]. by intros (? & ? & _ & ?).
Qed.

Lemma elem_of_edges_to edgeType id g e :
  e ∈ edges_to edgeType id g ↔
  ∃ ty i, (edgeType = AnyType ∨ edgeType = ty) ∧
          adjacent (edgesTo g) id ty i = Some e.
Proof.
  unfold edges_to, EdgesTo, adjacent.
  destruct (NS.Get (Type_ id) (ID id) (edgesTo g)) as [es|]; simpl.
  - apply elem_of_RangeType_collect.
  - split; [by intros ?%elem_of_nil|]. by intros (? & ? & _ & ?).
Qed.

(** C6. An edge with a non-empty type, From and To whose endpoints are both
    stored nodes is added without error: GetEdge and HasEdge find it under its
    (type, id), and EdgesFrom on its From endpoint and EdgesTo on its To
    endpoint enumerate it, under its own type and under the wildcard. *)
Theorem AddEdge_stores_and_lists uuid e g :
  edge_type e ≠ "" → empty_id (From e) = false → empty_id (To e) = false →
  HasNode (From e) g = true → HasNode (To e) g = true →
  snd (AddEdge uuid e g) = None ∧
  GetEdge (edge_key (Edge_assign uuid e)) (fst (AddEdge uuid e g))
    = Some (Edge_assign uuid e) ∧
  HasEdge (edge_key (Edge_assign uuid e)) (fst (AddEdge uuid e g)) = true ∧
  Edge_assign uuid e ∈ edges_from (edge_type e) (From e) (fst (AddEdge uuid e g)) ∧
  Edge_assign uuid e ∈ edges_from AnyType (From e) (fst (AddEdge uuid e g)) ∧
  Edge_assign uuid e ∈ edges_to (edge_type e) (To e) (fst (AddEdge uuid e g)) ∧
  Edge_assign uuid e ∈ edges_to AnyType (To e) (fst (AddEdge uuid e g)).
Proof.
  intros Hty Hfrom Hto Hnfrom Hnto.
  destruct (AddEdge_cases uuid e g)
    as [(Hinv & _)|[(_ & Hdang & _)|(_ & _ & Herr & _ & Hedges & HeF & HeT)]].
  { destruct Hinv as [?|[?|?]]; congruence. }
  { destruct Hdang; congruence. }
  set (e' := Edge_assign uuid e) in *. set (g' := fst (AddEdge uuid e g)) in *.
  assert (edge_type e' = edge_type e) as Hty' by apply Edge_assign_type.
  assert (From e' = From e) as Hfrom' by apply Edge_assign_From.
  assert (To e' = To e) as Hto' by apply Edge_assign_To.
  assert (GetEdge (edge_key e') g' = Some e') as Hget.
  { unfold GetEdge. rewrite Hedges. simpl. apply NS_Get_Set_eq. }
  assert (adjacent (edgesFrom g') (From e) (edge_type e') (edge_id e') = Some e')
    as HadjF.
  { rewrite HeF, adjacent_Set, Hfrom', TypedID_eta, decide_True by done.
    rewrite lookup_entry_AddEdge. by rewrite decide_True. }
  assert (adjacent (edgesTo g') (To e) (edge_type e') (edge_id e') = Some e')
    as HadjT.
  { rewrite HeT, adjacent_Set, Hto', TypedID_eta, decide_True by done.
    rewrite lookup_entry_AddEdge. by rewrite decide_True. }
  split; [done|]. split; [done|].
  split; [unfold HasEdge; by rewrite Hget|].
  rewrite !elem_of_edges_from, !elem_of_edges_to.
  repeat split; exists (edge_type e'), (edge_id e'); split; auto.
Qed.

Lemma AddEdge_stores_and_lists_witness :
  snd (AddEdge "e1" (friend "" coleman tyler) (run three_nodes NewGraphCacheMap))
    = None ∧
  GetEdge (mkTypedID "friend" "e1")
    (fst (AddEdge "e1" (friend "" coleman tyler)
            (run three_nodes NewGraphCacheMap)))
    = Some (friend "e1" coleman tyler) ∧
  friend "e1" coleman tyler ∈
    edges_from AnyType (node_key coleman)
      (fst (AddEdge "e1" (friend "" coleman tyler)
              (run three_nodes NewGraphCacheMap))) ∧
  friend "e1" coleman tyler ∈
    edges_to "friend" (node_key tyler)
      (fst (AddEdge "e1" (friend "" coleman tyler)
              (run three_nodes NewGraphCacheMap))).
Proof.
  destruct (AddEdge_stores_and_lists "e1" (friend "" coleman tyler)
              (run three_nodes NewGraphCacheMap))
    as (Herr & Hget & _ & _ & Hfrom & Hto & _);
    [discriminate|reflexivity|reflexivity|reflexivity|reflexivity|].
  exact (conj Herr (conj Hget (conj Hfrom Hto))).
Defined.

(** ** Import *)

Lemma nodes_AddEdge uuid e g : nodes (fst (AddEdge uuid e g)) = nodes g.
Proof.
  destruct (AddEdge_cases uuid e g)
    as [(_ & _ & ->)|[(_ & _ & _ & ->)|(_ & _ & _ & -> & _)]]; done.
Qed.

Lemma GetNode_AddNode uuid n id g :
  GetNode id (AddNode uuid n g) =
  if decide (node_key (Node_assign uuid n) = id) then Some (Node_assign uuid n)
  else GetNode id g.
Proof.
  unfold GetNode, AddNode. cbn [nodes]. rewrite NS_Get_Set.
  destruct id as [ty i]. unfold node_key. simpl.
  destruct (decide (node_type (Node_assign uuid n) = ty ∧
                    node_id (Node_assign uuid n) = i)) as [[<- <-]|Hne].
  - by rewrite decide_True.
  - rewrite decide_False; [done|]. intros [= ? ?]. by destruct Hne.
Qed.

Lemma GetEdge_AddEdge uuid e id g :
  snd (AddEdge uuid e g) = None →
  GetEdge id (fst (AddEdge uuid e g)) =
  if decide (edge_key (Edge_assign uuid e) = id) then Some (Edge_assign uuid e)
  else GetEdge id g.
Proof.
  intros Herr.
  destruct (AddEdge_cases uuid e g)
    as [(_ & [? Herr'] & _)|[(_ & _ & [? Herr'] & _)
       |(_ & _ & _ & _ & Hedges & _)]]; [congruence..|].
  unfold GetEdge. rewrite Hedges, NS_Get_Set.
  destruct id as [ty i]. unfold edge_key. simpl.
  destruct (decide (edge_type (Edge_assign uuid e) = ty ∧
                    edge_id (Edge_assign uuid e) = i)) as [[<- <-]|Hne].
  - by rewrite decide_True.
  - rewrite decide_False; [done|]. intros [= ? ?]. by destruct Hne.
Qed.

Lemma AddEdge_error_unchanged uuid e g :
  is_Some (snd (AddEdge uuid e g)) → fst (AddEdge uuid e g) = g.
Proof.
  destruct (AddEdge_cases uuid e g)
    as [(_ & _ & ->)|[(_ & _ & _ & ->)|(_ & _ & -> & _)]]; [done..|].
  by intros [? ?].
Qed.

Lemma HasNode_import_nodes uuid k ns g id :
  HasNode id g = true → HasNode id (import_nodes uuid k ns g) = true.
Proof.
  revert k g. induction ns as [|n ns IH]; intros k g Hid; simpl; [done|].
  apply IH. apply HasNode_true. rewrite GetNode_AddNode.
  case_decide; [by eexists|]. by apply HasNode_true.
Qed.

Lemma HasNode_import_nodes_lookup uuid k ns g j n :
  ns !! j = Some n →
  HasNode (node_key (Node_assign (uuid (k + j)) n)) (import_nodes uuid k ns g)
    = true.
Proof.
  revert k g j. induction ns as [|n' ns IH]; intros k g j Hj; [done|].
  destruct j as [|j]; simpl in *.
  - injection Hj as ->. rewrite Nat.add_0_r. apply HasNode_import_nodes.
    apply HasNode_true. rewrite GetNode_AddNode, decide_True by done.
    by eexists.
  - replace (k + S j) with (S k + j) by lia. by apply IH.
Qed.

Lemma nodes_import_edges uuid k es g :
  nodes (import_edges uuid k es g) = nodes g.
Proof.
  revert k g. induction es as [|e es IH]; intros k g; simpl; [done|].
  by rewrite IH, nodes_AddEdge.
Qed.

Lemma HasEdge_AddEdge uuid e g id :
  HasEdge id g = true → HasEdge id (fst (AddEdge uuid e g)) = true.
Proof.
  intros Hid. destruct (snd (AddEdge uuid e g)) as [err|] eqn:Herr.
  - by rewrite AddEdge_error_unchanged by by eexists.
  - apply HasEdge_true. rewrite GetEdge_AddEdge by done.
    case_decide; [by eexists|]. by apply HasEdge_true.
Qed.

Lemma HasEdge_import_edges uuid k es g id :
  HasEdge id g = true → HasEdge id (import_edges uuid k es g) = true.
Proof.
  revert k g. induction es as [|e es IH]; intros k g Hid; simpl; [done|].
  by apply IH, HasEdge_AddEdge.
Qed.

Lemma import_edges_app uuid k es1 es2 g :
  import_edges uuid k (es1 ++ es2) g =
  import_edges uuid (k + length es1) es2 (import_edges uuid k es1 g).
Proof.
  revert k g. induction es1 as [|e es1 IH]; intros k g; simpl.
  - by rewrite Nat.add_0_r.
  - rewrite IH. f_equal. lia.
Qed.

Lemma import_edges_skips uuid k es g :
  import_edges uuid k es g = add_edges_skipping_failures uuid k es g.
Proof.
  revert k g. induction es as [|e es IH]; intros k g; simpl; [done|].
  destruct (AddEdge (uuid k) e g) as [g' [err|]] eqn:Hadd; rewrite IH; [|done].
  f_equal. change g' with (fst (g', Some err)). rewrite <-Hadd.
  apply AddEdge_error_unchanged. rewrite Hadd. by eexists.
Qed.

(** C8. Import adds every node in snapshot order, then attempts AddEdge for
    every edge in snapshot order, and returns no error whatever the AddEdge
    calls returned: an edge whose AddEdge fails is skipped, every node of the
    snapshot is a node afterwards, and every edge whose AddEdge succeeded is
    still stored afterwards. *)
Theorem Import_never_fails_and_skips_bad_edges uuid exp g :
  snd (Import uuid exp g) = None ∧
  fst (Import uuid exp g) =
    add_edges_skipping_failures uuid (length (Nodes exp)) (Edges exp)
      (import_nodes uuid 0 (Nodes exp) g) ∧
  (∀ j n, Nodes exp !! j = Some n →
     HasNode (node_key (Node_assign (uuid j) n)) (fst (Import uuid exp g)) = true) ∧
  (∀ j e, Edges exp !! j = Some e →
     snd (AddEdge (uuid (length (Nodes exp) + j)) e
            (import_edges uuid (length (Nodes exp)) (take j (Edges exp))
               (import_nodes uuid 0 (Nodes exp) g))) = None →
     HasEdge (edge_key (Edge_assign (uuid (length (Nodes exp) + j)) e))
       (fst (Import uuid exp g)) = true).
Proof.
  unfold Import. cbn [fst snd]. split; [done|]. split; [apply import_edges_skips|].
  split.
  - intros j n Hj. apply HasNode_true. unfold GetNode.
    rewrite nodes_import_edges. apply HasNode_true.
    by apply (HasNode_import_nodes_lookup uuid 0).
  - intros j e Hj Herr.
    rewrite <-(take_drop_middle (Edges exp) j e Hj) at 1.
    rewrite import_edges_app. simpl.
    assert (length (take j (Edges exp)) = j) as ->.
    { rewrite length_take. apply lookup_lt_Some in Hj. lia. }
    apply HasEdge_import_edges, HasEdge_true.
    rewrite GetEdge_AddEdge by done. rewrite decide_True by done. by eexists.
Qed.

(** ** How AddEdge and DelEdge change the adjacency indices *)

Lemma adjacent_add_side (idx : gmap string (gmap string edgeMap.t)) k0 e k ty i :
  adjacent
    (NS.Set_ (Type_ k0) (ID k0)
       (edgeMap.AddEdge e
          (default edgeMap.empty (NS.Get (Type_ k0) (ID k0) idx))) idx) k ty i
  = if decide (k = k0 ∧ ty = edge_type e ∧ i = edge_id e) then Some e
    else adjacent idx k ty i.
Proof.
  rewrite adjacent_Set, TypedID_eta.
  destruct (decide (k = k0)) as [->|Hk].
  - rewrite lookup_entry_AddEdge. unfold adjacent.
    destruct (decide (ty = edge_type e ∧ i = edge_id e)) as [[-> ->]|Hne].
    + by rewrite decide_True.
    + rewrite decide_False by naive_solver.
      destruct (NS.Get (Type_ k0) (ID k0) idx); simpl; [done|].
      apply lookup_entry_empty.
  - by rewrite decide_False by naive_solver.
Qed.

Lemma adjacent_del_side (idx : gmap string (gmap string edgeMap.t)) k0 id k ty i :
  adjacent
    match NS.Get (Type_ k0) (ID k0) idx with
    | Some es => NS.Set_ (Type_ k0) (ID k0) (edgeMap.DelEdge id es) idx
    | None => idx
    end k ty i
  = if decide (k = k0 ∧ i = ID id) then None else adjacent idx k ty i.
Proof.
  destruct (NS.Get (Type_ k0) (ID k0) idx) as [es|] eqn:Hes.
  - rewrite adjacent_Set, TypedID_eta.
    destruct (decide (k = k0)) as [->|Hk].
    + rewrite lookup_entry_DelEdge. unfold adjacent. rewrite Hes. simpl.
      destruct (decide (i = ID id)) as [->|Hne].
      * by rewrite decide_True.
      * by rewrite decide_False by naive_solver.
    + by rewrite decide_False by naive_solver.
  - destruct (decide (k = k0 ∧ i = ID id)) as [(-> & _)|]; [|done].
    unfold adjacent. by rewrite Hes.
Qed.

Lemma DelEdge_found id g edge :
  GetEdge id g = Some edge →
  nodes (DelEdge id g) = nodes g ∧
  edges (DelEdge id g) = NS.Delete (Type_ id) (ID id) (edges g) ∧
  (∀ k ty i,
     adjacent (edgesFrom (DelEdge id g)) k ty i =
     if decide (k = From edge ∧ i = ID id) then None
     else adjacent (edgesFrom g) k ty i) ∧
  (∀ k ty i,
     adjacent (edgesTo (DelEdge id g)) k ty i =
     if decide (k = To edge ∧ i = ID id) then None
     else adjacent (edgesTo g) k ty i).
Proof.
  unfold GetEdge. intros Hget. split; [apply nodes_DelEdge|].
  unfold DelEdge. rewrite Hget. cbn [nodes edges edgesFrom edgesTo].
  assert (∀ x : Graph,
            edgesFrom
              match NS.Get (Type_ (To edge)) (ID (To edge)) (edgesTo x) with
              | Some es =>
                  mkGraph (nodes x) (edges x) (edgesFrom x)
                    (NS.Set_ (Type_ (To edge)) (ID (To edge))
                       (edgeMap.DelEdge id es) (edgesTo x))
              | None => x
              end = edgesFrom x) as HF.
  { intros x. by destruct (NS.Get _ _ (edgesTo x)). }
  assert (∀ x : Graph,
            edges
              match NS.Get (Type_ (To edge)) (ID (To edge)) (edgesTo x) with
              | Some es =>
                  mkGraph (nodes x) (edges x) (edgesFrom x)
                    (NS.Set_ (Type_ (To edge)) (ID (To edge))
                       (edgeMap.DelEdge id es) (edgesTo x))
              | None => x
              end = edges x) as HE.
  { intros x. by destruct (NS.Get _ _ (edgesTo x)). }
  assert (∀ x : Graph,
            edgesTo
              match NS.Get (Type_ (To edge)) (ID (To edge)) (edgesTo x) with
              | Some es =>
                  mkGraph (nodes x) (edges x) (edgesFrom x)
                    (NS.Set_ (Type_ (To edge)) (ID (To edge))
                       (edgeMap.DelEdge id es) (edgesTo x))
              | None => x
              end
            = match NS.Get (Type_ (To edge)) (ID (To edge)) (edgesTo x) with
              | Some es => NS.Set_ (Type_ (To edge)) (ID (To edge))
                             (edgeMap.DelEdge id es) (edgesTo x)
              | None => edgesTo x
              end) as HT.
  { intros x. by destruct (NS.Get _ _ (edgesTo x)). }
  rewrite HE, HF, HT. clear HE HF HT.
  destruct (NS.Get (Type_ (From edge)) (ID (From edge)) (edgesFrom g))
    as [es|] eqn:HesF; cbn [nodes edges edgesFrom edgesTo].
  - split; [done|]. split.
    + intros k ty i.
      pose proof (adjacent_del_side (edgesFrom g) (From edge) id k ty i) as H.
      by rewrite HesF in H.
    + intros k ty i. apply adjacent_del_side.
  - split; [done|]. split.
    + intros k ty i.
      pose proof (adjacent_del_side (edgesFrom g) (From edge) id k ty i) as H.
      by rewrite HesF in H.
    + intros k ty i. apply adjacent_del_side.
Qed.

(** ** The invariant is kept by every operation that adds no stored key again *)

Lemma indexed_ext g g' :
  edges g' = edges g → edgesFrom g' = edgesFrom g → edgesTo g' = edgesTo g →
  indexed g → indexed g'.
Proof. unfold indexed. by intros -> -> ->. Qed.

Lemma indexed_new : indexed NewGraphCacheMap.
Proof.
  unfold indexed, adjacent, NewGraphCacheMap. cbn [edges edgesFrom edgesTo].
  split; [|split]; intros *; rewrite NS_Get_empty; done.
Qed.

Lemma indexed_AddNode uuid n g : indexed g → indexed (AddNode uuid n g).
Proof. by apply indexed_ext. Qed.

Lemma indexed_DelEdge id g : indexed g → indexed (DelEdge id g).
Proof.
  intros (I1 & I2 & I3).
  destruct (GetEdge id g) as [edge|] eqn:Hget;
    [|by rewrite DelEdge_absent].
  destruct (DelEdge_found id g edge Hget) as (_ & Hedges & HF & HT).
  unfold GetEdge in Hget.
  assert (∀ ty i e, NS.Get ty i (edges (DelEdge id g)) = Some e ↔
                    ¬ (ty = Type_ id ∧ i = ID id) ∧
                    NS.Get ty i (edges g) = Some e)
    as Hlookup.
  { intros ty i e. rewrite Hedges, NS_Get_Delete.
    destruct (decide (Type_ id = ty ∧ ID id = i)) as [[<- <-]|Hne].
    - split; [done|]. by intros [[] _].
    - split; [|by intros [_ ?]]. intros Hold. split; [|done].
      intros [-> ->]. by destruct Hne. }
  split; [|split].
  - intros ty i e [_ Hold]%Hlookup. by apply I1.
  - intros k ty i e. rewrite HF.
    destruct (decide (k = From edge ∧ i = ID id)) as [|Hcase]; [done|].
    intros Hadj. destruct (I2 _ _ _ _ Hadj) as [Hold HFrom].
    split; [|done]. apply Hlookup. split; [|done].
    intros [-> ->]. rewrite Hget in Hold. injection Hold as <-.
    by destruct Hcase.
  - intros k ty i e. rewrite HT.
    destruct (decide (k = To edge ∧ i = ID id)) as [|Hcase]; [done|].
    intros Hadj. destruct (I3 _ _ _ _ Hadj) as [Hold HTo].
    split; [|done]. apply Hlookup. split; [|done].
    intros [-> ->]. rewrite Hget in Hold. injection Hold as <-.
    by destruct Hcase.
Qed.

Lemma indexed_DelNode id g : indexed g → indexed (DelNode id g).
Proof.
  intros Hg. unfold DelNode.
  eapply (indexed_ext
            match NS.Get (Type_ id) (ID id) (edgesFrom g) with
            | Some es => edgeMap.Range (outbound id)
                           (λ e g, DelEdge (edge_key e) g) es g
            | None => g
            end); [done..|].
  destruct (NS.Get (Type_ id) (ID id) (edgesFrom g)) as [es|]; [|done].
  apply (edgeMap_Range_preserves indexed); [|done].
  intros e s. apply indexed_DelEdge.
Qed.

Lemma indexed_AddEdge uuid e g :
  indexed g → HasEdge (edge_key (Edge_assign uuid e)) g = false →
  indexed (fst (AddEdge uuid e g)).
Proof.
  intros (I1 & I2 & I3) Hfresh%HasEdge_false.
  destruct (AddEdge_cases uuid e g)
    as [(_ & _ & ->)|[(_ & _ & _ & ->)
       |(_ & _ & _ & _ & Hedges & HeF & HeT)]]; [done..|].
  set (e' := Edge_assign uuid e) in *. set (g' := fst (AddEdge uuid e g)) in *.
  unfold GetEdge in Hfresh. simpl in Hfresh.
  assert (∀ ty i x, NS.Get ty i (edges g') = Some x ↔
                    ((ty = edge_type e' ∧ i = edge_id e') ∧ x = e') ∨
                    (¬ (ty = edge_type e' ∧ i = edge_id e') ∧
                     NS.Get ty i (edges g) = Some x)) as Hlookup.
  { intros ty i x. rewrite Hedges, NS_Get_Set.
    destruct (decide (edge_type e' = ty ∧ edge_id e' = i)) as [[<- <-]|Hne].
    - split.
      + intros [= <-]. by left.
      + intros [[_ ->]|[[] _]]; done.
    - split.
      + intros Hold. right. split; [|done]. intros [-> ->]. by destruct Hne.
      + intros [[[-> ->] _]|[_ ?]]; [by destruct Hne|done]. }
  assert (∀ k ty i,
            adjacent (edgesFrom g') k ty i =
            if decide (k = From e' ∧ ty = edge_type e' ∧ i = edge_id e')
            then Some e' else adjacent (edgesFrom g) k ty i) as HF.
  { intros k ty i. rewrite HeF. apply adjacent_add_side. }
  assert (∀ k ty i,
            adjacent (edgesTo g') k ty i =
            if decide (k = To e' ∧ ty = edge_type e' ∧ i = edge_id e')
            then Some e' else adjacent (edgesTo g) k ty i) as HT.
  { intros k ty i. rewrite HeT. apply adjacent_add_side. }
  split; [|split].
  - intros ty i x [[[-> ->] ->]|[Hne Hold]]%Hlookup; [done|]. by apply I1.
  - intros k ty i x. rewrite HF.
    destruct (decide (k = From e' ∧ ty = edge_type e' ∧ i = edge_id e'))
      as [(-> & -> & ->)|Hcase].
    + intros [= <-]. split; [|done]. apply Hlookup. by left.
    + intros Hadj. destruct (I2 _ _ _ _ Hadj) as [Hold HFrom].
      split; [|done]. apply Hlookup. right. split; [|done].
      intros [-> ->]. congruence.
  - intros k ty i x. rewrite HT.
    destruct (decide (k = To e' ∧ ty = edge_type e' ∧ i = edge_id e'))
      as [(-> & -> & ->)|Hcase].
    + intros [= <-]. split; [|done]. apply Hlookup. by left.
    + intros Hadj. destruct (I3 _ _ _ _ Hadj) as [Hold HTo].
      split; [|done]. apply Hlookup. right. split; [|done].
      intros [-> ->]. congruence.
Qed.

Lemma indexed_apply_op o g :
  indexed g → reuses_key o g = false → indexed (apply_op o g).
Proof.
  intros Hg Hfresh. destruct o as [uuid n|uuid e|id|id]; simpl in *.
  - by apply indexed_AddNode.
  - destruct (snd (AddEdge uuid e g)) as [err|] eqn:Herr.
    + by rewrite AddEdge_error_unchanged by by eexists.
    + by apply indexed_AddEdge.
  - by apply indexed_DelNode.
  - by apply indexed_DelEdge.
Qed.

Lemma indexed_run ops g :
  indexed g → fresh_keys ops g = true → indexed (run ops g).
Proof.
  revert g. induction ops as [|o ops IH]; intros g Hg Hfresh; simpl; [done|].
  simpl in Hfresh. apply andb_true_iff in Hfresh as [Ho Hfresh].
  apply negb_true_iff in Ho. apply IH; [|done]. by apply indexed_apply_op.
Qed.

Lemma readd_other_target_inbound :
  adjacent (edgesTo (run readd_other_target NewGraphCacheMap)) (node_key tyler)
    "friend" "1" = Some (friend "1" coleman tyler).
Proof. vm_compute. reflexivity. Qed.

Lemma readd_other_target_edges :
  edges (run readd_other_target NewGraphCacheMap) =
  NS.Set_ "friend" "1" (friend "1" coleman charlie) NS.newCacheMap.
Proof. vm_compute. reflexivity. Qed.

Lemma readd_other_target_stored id e :
  GetEdge id (run readd_other_target NewGraphCacheMap) = Some e →
  e = friend "1" coleman charlie.
Proof.
  unfold GetEdge. rewrite readd_other_target_edges, NS_Get_Set, NS_Get_empty.
  destruct (decide ("friend" = Type_ id ∧ "1" = ID id)); [|discriminate].
  congruence.
Qed.

Lemma friend_tyler_is_not_friend_charlie :
  friend "1" coleman tyler ≠ friend "1" coleman charlie.
Proof. intros H. apply (f_equal To) in H. vm_compute in H. discriminate H. Qed.

(** C3 fails on the code. friend.1 is added from coleman to tyler and then
    again from coleman to charlie: AddEdge does not look for a stored edge
    with the same (type, id), it overwrites the entry of the edges map and
    leaves the replaced edge in the lists of its endpoints.  The edges map
    holds the second edge; the inbound list of tyler still holds the first,
    which is not stored. *)
Lemma readded_edge_breaks_consistency :
  ¬ consistent (run readd_other_target NewGraphCacheMap).
Proof.
  intros [_ Hstored].
  destruct (Hstored (node_key tyler) "friend" "1" (friend "1" coleman tyler))
    as [id Hid]; [right; exact readd_other_target_inbound|].
  apply readd_other_target_stored in Hid.
  by apply friend_tyler_is_not_friend_charlie in Hid.
Qed.

(** ** The cascade of DelNode *)

Lemma edges_DelEdge id g :
  edges (DelEdge id g) = NS.Delete (Type_ id) (ID id) (edges g).
Proof.
  destruct (GetEdge id g) as [edge|] eqn:Hget.
  - by destruct (DelEdge_found id g edge Hget) as (_ & -> & _).
  - rewrite DelEdge_absent by done. by rewrite NS_Delete_absent.
Qed.

(** C2 fails on the code. friend.1 is added from coleman to tyler and then
    again from coleman to charlie; AddEdge leaves the replaced edge in the
    inbound list of tyler.  DelNode(coleman) removes the stored edge from the
    list of charlie, the To endpoint of the edge DelEdge finds in the edges
    map; the inbound list of tyler keeps the first edge, whose From endpoint
    is coleman. *)
Lemma DelNode_leaves_readded_edge_listed :
  ¬ cascade_complete (run readd_other_target NewGraphCacheMap)
      (node_key coleman).
Proof.
  intros [_ Hedges].
  destruct (Hedges (friend "1" coleman tyler)) as (_ & _ & Hto); [reflexivity|].
  apply Hto. vm_compute. apply list_elem_of_singleton. reflexivity.
Qed.

(** ** What Export enumerates *)

Lemma SyncCache_Range_collect {V} (c : gmap string V) (s : list V) :
  SyncCache.Range (λ _ v s, collect v s) c s = s ++ (map_to_list c).*2.
Proof.
  unfold SyncCache.Range. by rewrite (range_entries_collect (λ _ v, v)).
Qed.

Lemma elem_of_NS_Range_collect {V} namespace (n : gmap string (gmap string V))
    (s : list V) (x : V) :
  x ∈ NS.Range namespace (λ _ v s, collect v s) n s ↔
  x ∈ s ∨ ∃ ty i, (namespace = AnyType ∨ namespace = ty) ∧ NS.Get ty i n = Some x.
Proof.
  unfold NS.Range, NS.Get, SyncCache.Get.
  destruct (decide (namespace = AnyType)) as [->|Hany].
  - assert (∀ (l : list (gmap string V)) s,
              x ∈ foldl (λ s c, SyncCache.Range (λ _ v s, collect v s) c s) s l ↔
              x ∈ s ∨ ∃ c i, c ∈ l ∧ c !! i = Some x) as Hfold.
    { induction l as [|c l IH]; intros s'; simpl.
      - split; [by left|]. intros [?|(c & i & Hin & _)]; [done|].
        by apply elem_of_nil in Hin.
      - rewrite IH, SyncCache_Range_collect, elem_of_app. split.
        + intros [[?|Hx]|(c' & i & Hin & Hi)].
          * by left.
          * right. apply list_elem_of_fmap in Hx as [[i v] [-> Hx]].
            exists c, i. split; [by left|]. by apply elem_of_map_to_list.
          * right. exists c', i. split; [by right|done].
        + intros [?|(c' & i & [->|Hin]%elem_of_cons & Hi)].
          * by left; left.
          * left; right. apply list_elem_of_fmap. exists (i, x).
            split; [done|]. by apply elem_of_map_to_list.
          * right. by exists c', i. }
    rewrite Hfold. split.
    + intros [?|(c & i & Hin & Hi)]; [by left|]. right.
      apply list_elem_of_fmap in Hin as [[ty c'] [-> Hin]].
      apply elem_of_map_to_list in Hin. exists ty, i. split; [by left|].
      by rewrite Hin.
    + intros [?|(ty & i & _ & Hi)]; [by left|]. right.
      destruct (n !! ty) as [c|] eqn:Hc; [|done].
      exists c, i. split; [|done]. apply list_elem_of_fmap. exists (ty, c).
      split; [done|]. by apply elem_of_map_to_list.
  - split.
    + destruct (n !! namespace) as [c|] eqn:Hc; [|by left].
      rewrite SyncCache_Range_collect, elem_of_app.
      intros [?|Hx]; [by left|]. right.
      apply list_elem_of_fmap in Hx as [[i v] [-> Hx]].
      exists namespace, i. split; [by right|]. rewrite Hc.
      by apply elem_of_map_to_list.
    + intros [Hx|(ty & i & [?| <-] & Hi)]; [|done|].
      * destruct (n !! namespace); [|done].
        rewrite SyncCache_Range_collect, elem_of_app. by left.
      * destruct (n !! namespace) as [c|] eqn:Hc; [|done].
        rewrite SyncCache_Range_collect, elem_of_app. right.
        apply list_elem_of_fmap. exists (i, x). split; [done|].
        by apply elem_of_map_to_list.
Qed.

(** The loop of RangeNodes and RangeEdges over the namespaces visits exactly
    the stored values, whatever the order of the namespaces, and whether or not
    one of them is the wildcard. *)
Lemma elem_of_range_all {V} (n : gmap string (gmap string V)) (x : V) :
  x ∈ foldl (λ s namespace, NS.Range namespace (λ _ v s, collect v s) n s)
        [] (NS.Namespaces n) ↔
  ∃ ty i, NS.Get ty i n = Some x.
Proof.
  assert (∀ (l : list string) s,
            x ∈ foldl (λ s namespace,
                         NS.Range namespace (λ _ v s, collect v s) n s) s l ↔
            x ∈ s ∨ ∃ namespace ty i, namespace ∈ l ∧
                    (namespace = AnyType ∨ namespace = ty) ∧
                    NS.Get ty i n = Some x) as Hfold.
  { induction l as [|ns l IH]; intros s; simpl.
    - split; [by left|]. intros [?|(ns & ty & i & Hin & _)]; [done|].
      by apply elem_of_nil in Hin.
    - rewrite IH, elem_of_NS_Range_collect. split.
      + intros [[?|(ty & i & Hns & Hi)]|(ns' & ty & i & Hin & Hns & Hi)].
        * by left.
        * right. exists ns, ty, i. split; [by left|done].
        * right. exists ns', ty, i. split; [by right|done].
      + intros [?|(ns' & ty & i & [->|Hin]%elem_of_cons & Hns & Hi)].
        * by left; left.
        * left; right. by exists ty, i.
        * right. by exists ns', ty, i. }
  rewrite Hfold. split.
  - intros [Hx|(ns & ty & i & _ & _ & Hi)]; [by apply elem_of_nil in Hx|].
    by exists ty, i.
  - intros (ty & i & Hi). right. exists ty, ty, i. split; [|by split; [right|]].
    unfold NS.Namespaces. unfold NS.Get in Hi.
    destruct (n !! ty) as [c|] eqn:Hc; [|done].
    apply list_elem_of_fmap. exists (ty, c). split; [done|].
    by apply elem_of_map_to_list.
Qed.

Lemma elem_of_Export_Nodes g n :
  n ∈ Nodes (Graph_Export g) ↔ ∃ id, GetNode id g = Some n.
Proof.
  unfold Graph_Export, RangeNodes, GetNode. cbn [Nodes].
  rewrite elem_of_range_all. split.
  - intros (ty & i & Hi). by exists (mkTypedID ty i).
  - intros [id Hid]. by exists (Type_ id), (ID id).
Qed.

Lemma elem_of_Export_Edges g e :
  e ∈ Edges (Graph_Export g) ↔ ∃ id, GetEdge id g = Some e.
Proof.
  unfold Graph_Export, RangeEdges, GetEdge. cbn [Edges].
  rewrite elem_of_range_all. split.
  - intros (ty & i & Hi). by exists (mkTypedID ty i).
  - intros [id Hid]. by exists (Type_ id), (ID id).
Qed.

(** ** Every history with assigned ids keeps the entries under their own keys *)

Lemma keyed_new : keyed NewGraphCacheMap.
Proof.
  unfold keyed, NewGraphCacheMap. cbn [nodes edges].
  split; intros *; by rewrite NS_Get_empty.
Qed.

Lemma keyed_AddNode uuid n g :
  node_id (Node_assign uuid n) ≠ "" → keyed g → keyed (AddNode uuid n g).
Proof.
  intros Hid [HN HE]. split; [|exact HE].
  intros ty i x. unfold AddNode. cbn [nodes]. rewrite NS_Get_Set.
  destruct (decide (node_type (Node_assign uuid n) = ty ∧
                    node_id (Node_assign uuid n) = i)) as [[<- <-]|_];
    [|by apply HN].
  by intros [= <-].
Qed.

Lemma keyed_AddEdge uuid e g :
  edge_id (Edge_assign uuid e) ≠ "" → keyed g → keyed (fst (AddEdge uuid e g)).
Proof.
  intros Hid [HN HE].
  destruct (AddEdge_cases uuid e g)
    as [(_ & _ & ->)|[(_ & _ & _ & ->)
       |(Hvalid & _ & _ & Hnodes & Hedges & _)]]; [done..|].
  split; [by rewrite Hnodes|].
  intros ty i x. rewrite Hedges, NS_Get_Set.
  destruct (decide (edge_type (Edge_assign uuid e) = ty ∧
                    edge_id (Edge_assign uuid e) = i)) as [[<- <-]|_];
    [|by apply HE].
  intros [= <-]. by rewrite invalid_assign.
Qed.

Lemma keyed_subset g g' :
  (∀ ty i n, NS.Get ty i (nodes g') = Some n → NS.Get ty i (nodes g) = Some n) →
  (∀ ty i e, NS.Get ty i (edges g') = Some e → NS.Get ty i (edges g) = Some e) →
  keyed g → keyed g'.
Proof. intros Hn He [HN HE]. split; intros *; eauto. Qed.

Lemma NS_Get_Delete_Some {V} ns k ns' k' (n : gmap string (gmap string V)) v :
  NS.Get ns' k' (NS.Delete ns k n) = Some v → NS.Get ns' k' n = Some v.
Proof. rewrite NS_Get_Delete. by destruct (decide (ns = ns' ∧ k = k')). Qed.

Lemma keyed_DelEdge id g : keyed g → keyed (DelEdge id g).
Proof.
  apply keyed_subset.
  - by rewrite nodes_DelEdge.
  - intros ty i e. rewrite edges_DelEdge. apply NS_Get_Delete_Some.
Qed.

Lemma edges_DelNode_subset id g ty i e :
  NS.Get ty i (edges (DelNode id g)) = Some e → NS.Get ty i (edges g) = Some e.
Proof.
  unfold DelNode. cbn [edges].
  destruct (NS.Get (Type_ id) (ID id) (edgesFrom g)) as [es|]; [|done].
  revert ty i e.
  apply (edgeMap_Range_preserves
           (λ s, ∀ ty i e, NS.Get ty i (edges s) = Some e →
                           NS.Get ty i (edges g) = Some e)); [|done].
  intros x s Hs ty i e. rewrite edges_DelEdge.
  intros ?%NS_Get_Delete_Some. by apply Hs.
Qed.

Lemma keyed_DelNode id g : keyed g → keyed (DelNode id g).
Proof.
  apply keyed_subset.
  - intros ty i n. rewrite nodes_DelNode. apply NS_Get_Delete_Some.
  - apply edges_DelNode_subset.
Qed.

Lemma keyed_run ops g : ids_assigned ops = true → keyed g → keyed (run ops g).
Proof.
  revert g. induction ops as [|o ops IH]; intros g Hids Hg; simpl; [done|].
  simpl in Hids. apply andb_true_iff in Hids as [Ho Hids].
  apply IH; [done|]. destruct o as [uuid n|uuid e|id|id]; simpl in *.
  - apply keyed_AddNode; [|done].
    by apply negb_true_iff, bool_decide_eq_false in Ho.
  - apply keyed_AddEdge; [|done].
    by apply negb_true_iff, bool_decide_eq_false in Ho.
  - by apply keyed_DelNode.
  - by apply keyed_DelEdge.
Qed.

(** ** Replaying a snapshot *)

Lemma Node_assign_id uuid n : node_id n ≠ "" → Node_assign uuid n = n.
Proof. intros Hid. unfold Node_assign. by rewrite bool_decide_eq_false_2. Qed.

Lemma Edge_assign_id uuid e : edge_id e ≠ "" → Edge_assign uuid e = e.
Proof. intros Hid. unfold Edge_assign. by rewrite bool_decide_eq_false_2. Qed.

Lemma edges_import_nodes uuid k ns g :
  edges (import_nodes uuid k ns g) = edges g.
Proof. revert k g. induction ns as [|n ns IH]; intros k g; simpl; [done|]. by rewrite IH. Qed.

Lemma GetNode_import_nodes_other uuid k ns g id :
  (∀ n, n ∈ ns → node_id n ≠ "" ∧ node_key n ≠ id) →
  GetNode id (import_nodes uuid k ns g) = GetNode id g.
Proof.
  revert k g. induction ns as [|n ns IH]; intros k g Hns; simpl; [done|].
  rewrite IH by (intros; apply Hns; by right).
  destruct (Hns n) as [Hid Hkey]; [by left|].
  rewrite GetNode_AddNode, Node_assign_id by done. by rewrite decide_False.
Qed.

Lemma GetNode_import_nodes_elem uuid k ns g n :
  (∀ n, n ∈ ns → node_id n ≠ "") →
  (∀ n n', n ∈ ns → n' ∈ ns → node_key n = node_key n' → n = n') →
  n ∈ ns → GetNode (node_key n) (import_nodes uuid k ns g) = Some n.
Proof.
  revert k g. induction ns as [|n0 ns IH]; intros k g Hids Hfun Hin;
    [by apply elem_of_nil in Hin|]. simpl.
  destruct (decide (n ∈ ns)) as [Hlater|Hlast].
  - apply IH; [| |done].
    + intros; apply Hids; by right.
    + intros n1 n2 ? ?; apply Hfun; by right.
  - apply elem_of_cons in Hin as [->|?]; [|done].
    rewrite GetNode_import_nodes_other.
    + rewrite GetNode_AddNode, Node_assign_id by (apply Hids; by left).
      by rewrite decide_True.
    + intros n Hn. split; [apply Hids; by right|].
      intros Hkey. apply Hlast. rewrite (Hfun n0 n); [done|by left|by right|done].
Qed.

Lemma HasNode_nodes g g' id : nodes g = nodes g' → HasNode id g = HasNode id g'.
Proof. unfold HasNode, GetNode. by intros ->. Qed.

Lemma AddEdge_succeeds uuid e g :
  ¬ invalid e → HasNode (From e) g = true → HasNode (To e) g = true →
  snd (AddEdge uuid e g) = None.
Proof.
  intros Hvalid HFrom HTo.
  destruct (AddEdge_cases uuid e g)
    as [(? & _)|[(_ & [?|?] & _)|(_ & _ & ? & _)]]; [done| | |done]; congruence.
Qed.

Lemma GetEdge_import_edges_other uuid k es g id :
  (∀ e, e ∈ es → edge_id e ≠ "" ∧ edge_key e ≠ id) →
  GetEdge id (import_edges uuid k es g) = GetEdge id g.
Proof.
  revert k g. induction es as [|e es IH]; intros k g Hes; simpl; [done|].
  rewrite IH by (intros; apply Hes; by right).
  destruct (Hes e) as [Hid Hkey]; [by left|].
  destruct (snd (AddEdge (uuid k) e g)) as [err|] eqn:Herr.
  - by rewrite AddEdge_error_unchanged by by eexists.
  - rewrite GetEdge_AddEdge, Edge_assign_id by done. by rewrite decide_False.
Qed.

Lemma GetEdge_import_edges_elem uuid k es g e :
  (∀ e, e ∈ es → edge_id e ≠ "" ∧ ¬ invalid e ∧
                 HasNode (From e) g = true ∧ HasNode (To e) g = true) →
  (∀ e e', e ∈ es → e' ∈ es → edge_key e = edge_key e' → e = e') →
  e ∈ es → GetEdge (edge_key e) (import_edges uuid k es g) = Some e.
Proof.
  revert k g. induction es as [|e0 es IH]; intros k g Hok Hfun Hin;
    [by apply elem_of_nil in Hin|]. simpl.
  destruct (decide (e ∈ es)) as [Hlater|Hlast].
  - apply IH; [| |done].
    + intros x Hx. destruct (Hok x) as (? & ? & ? & ?); [by right|].
      rewrite !(HasNode_nodes (fst (AddEdge (uuid k) e0 g)) g)
        by apply nodes_AddEdge.
      done.
    + intros e1 e2 ? ?; apply Hfun; by right.
  - apply elem_of_cons in Hin as [->|?]; [|done].
    destruct (Hok e0) as (Hid & Hvalid & HFrom & HTo); [by left|].
    rewrite GetEdge_import_edges_other.
    + rewrite GetEdge_AddEdge by by apply AddEdge_succeeds.
      rewrite Edge_assign_id by done. by rewrite decide_True.
    + intros x Hx. split; [by apply Hok; right|].
      intros Hkey. apply Hlast. rewrite (Hfun e0 x); [done|by left|by right|done].
Qed.

(** ** The round trip *)

Lemma keyed_node_key g id n :
  keyed g → GetNode id g = Some n → node_key n = id ∧ node_id n ≠ "".
Proof.
  intros [HN _] Hget. destruct (HN _ _ _ Hget) as (Hty & Hi & Hne).
  unfold node_key. rewrite Hty, Hi. split; [apply TypedID_eta|congruence].
Qed.

Lemma keyed_edge_key g id e :
  keyed g → GetEdge id g = Some e →
  edge_key e = id ∧ edge_id e ≠ "" ∧ ¬ invalid e.
Proof.
  intros [_ HE] Hget. destruct (HE _ _ _ Hget) as (Hty & Hi & Hne & Hvalid).
  unfold edge_key. rewrite Hty, Hi. split; [apply TypedID_eta|].
  split; [congruence|done].
Qed.

Lemma import_nodes_of_export uuid k g ns id :
  keyed g → (∀ n, n ∈ ns ↔ n ∈ Nodes (Graph_Export g)) →
  GetNode id (import_nodes uuid k ns NewGraphCacheMap) = GetNode id g.
Proof.
  intros Hg Hns.
  assert (∀ n, n ∈ ns → GetNode (node_key n) g = Some n ∧ node_id n ≠ "")
    as Hstored.
  { intros n [id' Hid']%Hns%elem_of_Export_Nodes.
    destruct (keyed_node_key g id' n Hg Hid') as [<- ?]. done. }
  destruct (GetNode id g) as [n|] eqn:Hid.
  - destruct (keyed_node_key g id n Hg Hid) as [<- _].
    apply GetNode_import_nodes_elem.
    + intros n' Hn'. by apply Hstored.
    + intros n1 n2 [H1 _]%Hstored [H2 _]%Hstored Hkey. congruence.
    + apply Hns, elem_of_Export_Nodes. by eexists.
  - rewrite GetNode_import_nodes_other.
    + unfold GetNode, NewGraphCacheMap. cbn [nodes]. apply NS_Get_empty.
    + intros n [Hn ?]%Hstored. split; [done|]. congruence.
Qed.

Lemma import_edges_of_export uuid k g g1 es id :
  keyed g → endpoints_present g = true →
  (∀ id, GetNode id g1 = GetNode id g) → (∀ id, GetEdge id g1 = None) →
  (∀ e, e ∈ es ↔ e ∈ Edges (Graph_Export g)) →
  GetEdge id (import_edges uuid k es g1) = GetEdge id g.
Proof.
  intros Hg Hends Hnodes Hempty Hes.
  assert (∀ e, e ∈ es →
            GetEdge (edge_key e) g = Some e ∧ edge_id e ≠ "" ∧ ¬ invalid e ∧
            HasNode (From e) g1 = true ∧ HasNode (To e) g1 = true) as Hstored.
  { intros e He%Hes. pose proof He as [id' Hid']%elem_of_Export_Edges.
    destruct (keyed_edge_key g id' e Hg Hid') as (<- & ? & ?).
    unfold endpoints_present in Hends. rewrite forallb_forall in Hends.
    apply list_elem_of_In, Hends, andb_true_iff in He as [HFrom HTo].
    unfold HasNode in *. rewrite !Hnodes. done. }
  destruct (GetEdge id g) as [e|] eqn:Hid.
  - destruct (keyed_edge_key g id e Hg Hid) as (<- & _).
    apply GetEdge_import_edges_elem.
    + intros e' (_ & ? & ? & ? & ?)%Hstored. done.
    + intros e1 e2 [H1 _]%Hstored [H2 _]%Hstored Hkey. congruence.
    + apply Hes, elem_of_Export_Edges. by eexists.
  - rewrite GetEdge_import_edges_other; [done|].
    intros e (He & ? & _)%Hstored. split; [done|]. congruence.
Qed.

(** C4. Let G be a graph built by AddNode, AddEdge, DelNode and DelEdge (every
    added node and edge having an id, its own or a generated one) in which the
    endpoints of every stored edge are stored nodes.  Importing what Export
    returns for G, in any order of its nodes and of its edges, into an empty
    graph gives a graph with the same nodes and the same edges under the same
    (type, id), so Export enumerates the same set of node (type, id) pairs and
    the same set of edge (type, id) pairs for both. *)
Theorem Import_Export_round_trip ops uuid exp :
  ids_assigned ops = true →
  endpoints_present (run ops NewGraphCacheMap) = true →
  Nodes exp ≡ₚ Nodes (Graph_Export (run ops NewGraphCacheMap)) →
  Edges exp ≡ₚ Edges (Graph_Export (run ops NewGraphCacheMap)) →
  (∀ id, GetNode id (fst (Import uuid exp NewGraphCacheMap))
         = GetNode id (run ops NewGraphCacheMap)) ∧
  (∀ id, GetEdge id (fst (Import uuid exp NewGraphCacheMap))
         = GetEdge id (run ops NewGraphCacheMap)) ∧
  (∀ id, id ∈ node_key <$> Nodes (Graph_Export (fst (Import uuid exp NewGraphCacheMap)))
         ↔ id ∈ node_key <$> Nodes (Graph_Export (run ops NewGraphCacheMap))) ∧
  (∀ id, id ∈ edge_key <$> Edges (Graph_Export (fst (Import uuid exp NewGraphCacheMap)))
         ↔ id ∈ edge_key <$> Edges (Graph_Export (run ops NewGraphCacheMap))).
Proof.
  intros Hids Hends HpermN HpermE.
  set (g := run ops NewGraphCacheMap) in *.
  assert (keyed g) as Hg by (apply keyed_run; [done|apply keyed_new]).
  assert (∀ id, GetNode id (fst (Import uuid exp NewGraphCacheMap))
                = GetNode id g) as HN.
  { intros id. unfold Import, GetNode. cbn [fst]. rewrite nodes_import_edges.
    apply (import_nodes_of_export uuid 0 g (Nodes exp) id Hg).
    intros n. by rewrite HpermN. }
  assert (∀ id, GetEdge id (fst (Import uuid exp NewGraphCacheMap))
                = GetEdge id g) as HE.
  { intros id. unfold Import. cbn [fst].
    apply import_edges_of_export; [done|done| | |].
    - intros id'. apply (import_nodes_of_export uuid 0 g (Nodes exp) id' Hg).
      intros n. by rewrite HpermN.
    - intros id'. unfold GetEdge. rewrite edges_import_nodes.
      unfold NewGraphCacheMap. cbn [edges]. apply NS_Get_empty.
    - intros e. by rewrite HpermE. }
  split; [done|]. split; [done|]. split.
  - intros id. rewrite !list_elem_of_fmap.
    split; intros (n & -> & Hn); exists n; (split; [done|]);
      apply elem_of_Export_Nodes; apply elem_of_Export_Nodes in Hn as [k Hk];
      exists k; [by rewrite <-HN|by rewrite HN].
  - intros id. rewrite !list_elem_of_fmap.
    split; intros (e & -> & He); exists e; (split; [done|]);
      apply elem_of_Export_Edges; apply elem_of_Export_Edges in He as [k Hk];
      exists k; [by rewrite <-HE|by rewrite HE].
Qed.

Lemma Import_Export_round_trip_witness :
  GetNode (node_key charlie)
    (fst (Import (λ _, "") friend_and_pet_snapshot NewGraphCacheMap))
    = GetNode (node_key charlie) (run friend_and_pet NewGraphCacheMap) ∧
  GetEdge (mkTypedID "pet" "2")
    (fst (Import (λ _, "") friend_and_pet_snapshot NewGraphCacheMap))
    = GetEdge (mkTypedID "pet" "2") (run friend_and_pet NewGraphCacheMap).
Proof.
  destruct (Import_Export_round_trip friend_and_pet (λ _, "")
              friend_and_pet_snapshot) as (HN & HE & _).
  - reflexivity.
  - vm_compute. reflexivity.
  - apply reverse_Permutation.
  - apply reverse_Permutation.
  - exact (conj (HN (node_key charlie)) (HE (mkTypedID "pet" "2"))).
Defined.

(** * Further properties of the namespace-partitioned map *)

Lemma elem_of_Namespaces {V} (n : gmap string (gmap string V)) namespace :
  namespace ∈ NS.Namespaces n ↔ is_Some (n !! namespace).
Proof.
  unfold NS.Namespaces. rewrite list_elem_of_fmap. split.
  - intros [[ns c] [-> Hin]]. apply elem_of_map_to_list in Hin. by exists c.
  - intros [c Hc]. exists (namespace, c). split; [done|].
    by apply elem_of_map_to_list.
Qed.

Lemma Namespaces_Set {V} (n : gmap string (gmap string V)) ns k v namespace :
  namespace ∈ NS.Namespaces (NS.Set_ ns k v n) ↔
  namespace = ns ∨ namespace ∈ NS.Namespaces n.
Proof.
  rewrite !elem_of_Namespaces. unfold NS.Set_.
  destruct (n !! ns) as [c|] eqn:Hns.
  - rewrite Hns, lookup_insert. destruct (decide (ns = namespace)) as [<-|Hne].
    + split; [by left|]. by eexists.
    + split; [by right|]. intros [?|?]; [congruence|done].
  - rewrite lookup_insert_eq. destruct (decide (ns = namespace)) as [<-|Hne].
    + rewrite lookup_insert_eq. split; [by left|]. by eexists.
    + rewrite !lookup_insert_ne by done. split; [by right|].
      intros [?|?]; [congruence|done].
Qed.

Lemma Namespaces_Delete {V} (n : gmap string (gmap string V)) ns k namespace :
  namespace ∈ NS.Namespaces (NS.Delete ns k n) ↔ namespace ∈ NS.Namespaces n.
Proof.
  rewrite !elem_of_Namespaces. unfold NS.Delete.
  destruct (n !! ns) as [c|] eqn:Hns; [|done].
  rewrite lookup_insert. destruct (decide (ns = namespace)) as [<-|Hne]; [|done].
  rewrite Hns. split; intros _; by eexists.
Qed.

(** X1. Set then Get returns the value that was written, whether or not the
    namespace existed; every other (namespace, key) reads as before; the
    namespace is listed afterwards and no namespace is unlisted. *)
Theorem Set_then_Get {V} (n : gmap string (gmap string V)) namespace key value :
  NS.Get namespace key (NS.Set_ namespace key value n) = Some value ∧
  (∀ namespace' key', (namespace', key') ≠ (namespace, key) →
     NS.Get namespace' key' (NS.Set_ namespace key value n)
     = NS.Get namespace' key' n) ∧
  (∀ namespace', namespace' ∈ NS.Namespaces (NS.Set_ namespace key value n) ↔
                 namespace' = namespace ∨ namespace' ∈ NS.Namespaces n).
Proof.
  split; [apply NS_Get_Set_eq|]. split.
  - intros ns' k' Hne. apply NS_Get_Set_ne. congruence.
  - intros ns'. apply Namespaces_Set.
Qed.

(** X2. After Delete, Get finds nothing under the key; every other entry reads
    as before; deleting what is not there (key or namespace) changes nothing,
    so Delete is idempotent; and the namespace stays listed even when its last
    entry goes. *)
Theorem Delete_then_Get {V} (n : gmap string (gmap string V)) namespace key :
  NS.Get namespace key (NS.Delete namespace key n) = None ∧
  (∀ namespace' key', (namespace', key') ≠ (namespace, key) →
     NS.Get namespace' key' (NS.Delete namespace key n)
     = NS.Get namespace' key' n) ∧
  (NS.Get namespace key n = None → NS.Delete namespace key n = n) ∧
  NS.Delete namespace key (NS.Delete namespace key n)
    = NS.Delete namespace key n ∧
  (∀ namespace', namespace' ∈ NS.Namespaces (NS.Delete namespace key n) ↔
                 namespace' ∈ NS.Namespaces n).
Proof.
  assert (NS.Get namespace key (NS.Delete namespace key n) = None) as Hgone.
  { rewrite NS_Get_Delete. by rewrite decide_True. }
  split; [done|]. split; [|split; [|split]].
  - intros ns' k' Hne. rewrite NS_Get_Delete.
    destruct (decide (namespace = ns' ∧ key = k')) as [[-> ->]|]; done.
  - apply NS_Delete_absent.
  - by apply NS_Delete_absent.
  - intros ns'. apply Namespaces_Delete.
Qed.

Lemma Namespaces_apply_map_op {V} (o : map_op V)
    (n : gmap string (gmap string V)) namespace :
  namespace ∈ NS.Namespaces (apply_map_op o n) ↔
  namespace ∈ NS.Namespaces n ∨ writes_to namespace o = true.
Proof.
  destruct o as [ns k v|ns m|ns k|ns]; simpl.
  - rewrite Namespaces_Set, bool_decide_eq_true. naive_solver.
  - rewrite !elem_of_Namespaces, bool_decide_eq_true. unfold NS.SetAll.
    destruct (n !! ns) as [c|] eqn:Hns.
    + rewrite Hns, lookup_insert. destruct (decide (ns = namespace)) as [<-|Hne].
      * split; [by right|]. by eexists.
      * split; [by left|]. intros [?|?]; [done|congruence].
    + rewrite lookup_insert_eq. destruct (decide (ns = namespace)) as [<-|Hne].
      * rewrite lookup_insert_eq. split; [by right|]. by eexists.
      * rewrite !lookup_insert_ne by done. split; [by left|].
        intros [?|?]; [done|congruence].
  - rewrite Namespaces_Delete. split; [by left|]. by intros [?|?].
  - rewrite !elem_of_Namespaces. unfold NS.Clear.
    destruct (n !! ns) as [c|] eqn:Hns.
    + rewrite lookup_insert. destruct (decide (ns = namespace)) as [<-|Hne].
      * rewrite Hns. split; [by left|]. intros _. by eexists.
      * split; [by left|]. by intros [?|?].
    + split; [by left|]. by intros [?|?].
Qed.

(** X3. A namespace is listed by Namespaces exactly when some Set or SetAll of
    the history wrote to it: Delete and Clear never unlist a namespace, and no
    namespace is listed twice. *)
Theorem Namespaces_lists_written_namespaces {V} (ops : list (map_op V))
    (namespace : string) :
  (namespace ∈ NS.Namespaces (run_map ops NS.newCacheMap) ↔
   ∃ o, o ∈ ops ∧ writes_to namespace o = true) ∧
  NoDup (NS.Namespaces (run_map ops NS.newCacheMap)).
Proof.
  split; [|apply NoDup_fst_map_to_list].
  assert (∀ n : gmap string (gmap string V),
            namespace ∈ NS.Namespaces (run_map ops n) ↔
            namespace ∈ NS.Namespaces n ∨
            ∃ o, o ∈ ops ∧ writes_to namespace o = true) as Hrun.
  { induction ops as [|o ops IH]; intros n; simpl.
    - split; [by left|]. intros [?|(o & Hin & _)]; [done|].
      by apply elem_of_nil in Hin.
    - rewrite IH, Namespaces_apply_map_op. split.
      + intros [[?|?]|(o' & Hin & Ho')].
        * by left.
        * right. exists o. split; [by left|done].
        * right. exists o'. split; [by right|done].
      + intros [?|(o' & [->|Hin]%elem_of_cons & Ho')].
        * by left; left.
        * by left; right.
        * right. by exists o'. }
  rewrite Hrun. split; [|by right].
  intros [Hin|?]; [|done].
  apply elem_of_Namespaces in Hin as [c Hc]. unfold NS.newCacheMap in Hc.
  by rewrite lookup_empty in Hc.
Qed.

Lemma SyncCache_Len_size {V} (c : gmap string V) : SyncCache.Len c = size c.
Proof.
  unfold SyncCache.Len, SyncCache.Range.
  rewrite (range_entries_accumulate (λ _ _ i, S i)). simpl.
  rewrite <-length_map_to_list.
  assert (∀ (l : list (string * V)) i,
            foldl (λ s _, S s) i l = i + length l) as Hcount.
  { induction l as [|x l IH]; intros i; simpl; [lia|]. rewrite IH. lia. }
  by rewrite Hcount.
Qed.

(** X4. Len is the number of keys of the namespace, 0 for a namespace without
    sub-map; a Set of a new key adds one, a Set of a stored key adds nothing, a
    Delete of a stored key takes one away, and Len is 0 exactly when Get finds
    nothing under any key. *)
Theorem Len_counts_keys {V} (n : gmap string (gmap string V)) namespace :
  NS.Len namespace n = size (default ∅ (n !! namespace)) ∧
  (∀ key value,
     NS.Len namespace (NS.Set_ namespace key value n) =
     match NS.Get namespace key n with
     | Some _ => NS.Len namespace n
     | None => S (NS.Len namespace n)
     end) ∧
  (∀ key,
     NS.Len namespace (NS.Delete namespace key n) =
     match NS.Get namespace key n with
     | Some _ => pred (NS.Len namespace n)
     | None => NS.Len namespace n
     end) ∧
  (NS.Len namespace n = 0 ↔ ∀ key, NS.Get namespace key n = None).
Proof.
  assert (∀ m : gmap string (gmap string V),
            NS.Len namespace m = size (default ∅ (m !! namespace))) as Hlen.
  { intros m. unfold NS.Len. destruct (m !! namespace) as [c|]; simpl.
    - apply SyncCache_Len_size.
    - by rewrite map_size_empty. }
  split; [apply Hlen|]. split; [|split].
  - intros key value. rewrite !Hlen. unfold NS.Set_, NS.Get, SyncCache.Get.
    destruct (n !! namespace) as [c|] eqn:Hns.
    + rewrite Hns, lookup_insert_eq. simpl. unfold SyncCache.Set_.
      rewrite map_size_insert. by destruct (c !! key).
    + rewrite lookup_insert_eq, insert_insert_eq, lookup_insert_eq. simpl.
      unfold SyncCache.Set_. by rewrite map_size_insert, lookup_empty.
  - intros key. rewrite !Hlen. unfold NS.Delete, NS.Get, SyncCache.Get.
    destruct (n !! namespace) as [c|] eqn:Hns; [|by rewrite Hns].
    rewrite lookup_insert_eq. simpl. unfold SyncCache.Delete.
    rewrite map_size_delete. by destruct (c !! key).
  - rewrite Hlen, map_size_empty_iff, map_empty. unfold NS.Get, SyncCache.Get.
    destruct (n !! namespace) as [c|]; simpl; [done|].
    split; [done|]. intros _ key. apply lookup_empty.
Qed.

Lemma range_entries_record_while {K V} (keep : K * V → bool)
    (l : list (K * V)) (seen : list (K * V)) :
  fst (range_entries (record_while keep) l seen) = seen ++ until_stop keep l.
Proof.
  revert seen. induction l as [|[k v] l IH]; intros seen; simpl.
  - by rewrite app_nil_r.
  - destruct (keep (k, v)); simpl.
    + rewrite IH. by rewrite <-app_assoc.
    + done.
Qed.

Lemma until_stop_prefix {A} (keep : A → bool) (l : list A) :
  ∃ rest, l = until_stop keep l ++ rest.
Proof.
  induction l as [|x l [rest IH]]; simpl; [by exists []|].
  destruct (keep x); simpl.
  - exists rest. by rewrite <-IH.
  - by exists l.
Qed.

Lemma until_stop_rejected_last {A} (keep : A → bool) (l : list A) i x :
  until_stop keep l !! i = Some x → keep x = false →
  S i = length (until_stop keep l).
Proof.
  revert i. induction l as [|y l IH]; intros i; simpl; [done|].
  destruct (keep y) eqn:Hy; simpl.
  - destruct i as [|i]; simpl.
    + intros [= ->] ?. congruence.
    + intros Hi Hx. f_equal. by apply IH.
  - destruct i as [|i]; simpl; [done|]. by rewrite lookup_nil.
Qed.

(** X5. Range over one named namespace stops for good: the callback is called
    on the entries in order up to and including the first one where it returns
    false, and on none after it. *)
Theorem Range_of_a_namespace_stops_at_first_false {V}
    (n : gmap string (gmap string V)) (namespace : string)
    (keep : string * V → bool) :
  namespace ≠ AnyType →
  NS.Range namespace (record_while keep) n []
    = until_stop keep (map_to_list (default ∅ (n !! namespace))) ∧
  (∃ rest, map_to_list (default ∅ (n !! namespace))
           = NS.Range namespace (record_while keep) n [] ++ rest) ∧
  (∀ i entry, NS.Range namespace (record_while keep) n [] !! i = Some entry →
              keep entry = false →
              S i = length (NS.Range namespace (record_while keep) n [])).
Proof.
  intros Hany.
  assert (NS.Range namespace (record_while keep) n []
          = until_stop keep (map_to_list (default ∅ (n !! namespace)))) as ->.
  { unfold NS.Range. rewrite decide_False by done.
    destruct (n !! namespace) as [c|]; simpl.
    - unfold SyncCache.Range. by rewrite range_entries_record_while.
    - by rewrite map_to_list_empty. }
  split; [done|]. split; [apply until_stop_prefix|].
  apply until_stop_rejected_last.
Qed.

Lemma Range_of_a_namespace_stops_at_first_false_witness :
  NS.Range "user" (record_while (λ _, false)) directory []
    = [("coleman", "owner")].
Proof.
  destruct (Range_of_a_namespace_stops_at_first_false directory "user"
              (λ _, false)) as [-> _]; [discriminate|].
  vm_compute. reflexivity.
Defined.

Lemma until_stop_all {A} (l : list A) : until_stop (λ _, true) l = l.
Proof. induction l as [|x l IH]; simpl; [done|]. by rewrite IH. Qed.

(** X6. When the callback never asks to stop, Range over one named namespace
    calls it exactly once for every entry of the namespace: no key comes
    twice, and (key, value) is visited exactly when Get finds value under
    key. *)
Theorem Range_of_a_namespace_visits_each_entry_once {V}
    (n : gmap string (gmap string V)) (namespace : string) :
  namespace ≠ AnyType →
  NoDup (NS.Range namespace (record_while (λ _, true)) n []).*1 ∧
  (∀ key value,
     (key, value) ∈ NS.Range namespace (record_while (λ _, true)) n [] ↔
     NS.Get namespace key n = Some value).
Proof.
  intros Hany. unfold NS.Range. rewrite decide_False by done.
  unfold NS.Get, SyncCache.Get. destruct (n !! namespace) as [c|].
  - unfold SyncCache.Range. rewrite range_entries_record_while, until_stop_all.
    simpl. split; [apply NoDup_fst_map_to_list|].
    intros key value. apply elem_of_map_to_list.
  - split; [constructor|]. intros key value. split; [by intros ?%elem_of_nil|done].
Qed.

Lemma Range_of_a_namespace_visits_each_entry_once_witness :
  ("coleman", "owner") ∈ NS.Range "user" (record_while (λ _, true)) directory [].
Proof.
  destruct (Range_of_a_namespace_visits_each_entry_once directory "user")
    as [_ Hvisited]; [discriminate|].
  apply Hvisited. vm_compute. reflexivity.
Defined.

(** X7. When the callback never asks to stop, the wildcard Range calls it once
    for every entry of every namespace: the number of calls is the sum of Len
    over Namespaces, and a value is visited exactly when Get finds it in some
    namespace. *)
Theorem wildcard_Range_visits_every_namespace {V}
    (n : gmap string (gmap string V)) :
  length (NS.Range AnyType (λ _ v seen, collect v seen) n [])
    = sum_list ((λ namespace, NS.Len namespace n) <$> NS.Namespaces n) ∧
  (∀ value,
     value ∈ NS.Range AnyType (λ _ v seen, collect v seen) n [] ↔
     ∃ namespace key, NS.Get namespace key n = Some value).
Proof.
  split.
  - unfold NS.Range, NS.Namespaces. rewrite decide_True by done.
    assert (∀ (l : list (string * gmap string V)) (seen : list V),
              Forall (λ nc, n !! nc.1 = Some nc.2) l →
              length (foldl (λ s c, SyncCache.Range (λ _ v seen, collect v seen) c s)
                        seen l.*2)
              = length seen + sum_list ((λ namespace, NS.Len namespace n) <$> l.*1))
      as Hcount.
    { induction l as [|[ns c] l IH]; intros seen Hl; csimpl; [lia|].
      apply Forall_cons in Hl as [Hc Hl]. simpl in Hc.
      rewrite IH by done. rewrite SyncCache_Range_collect, length_app.
      rewrite length_fmap, length_map_to_list.
      assert (NS.Len ns n = size c) as ->; [|lia].
      unfold NS.Len. by rewrite Hc, SyncCache_Len_size. }
    rewrite Hcount; [done|]. apply Forall_forall. intros [ns c] Hin. simpl.
    by apply elem_of_map_to_list.
  - intros value. rewrite elem_of_NS_Range_collect. split.
    + intros [Hin|(ty & i & _ & Hi)]; [by apply elem_of_nil in Hin|].
      by exists ty, i.
    + intros (ty & i & Hi). right. exists ty, i. split; [by left|done].
Qed.

Lemma foldl_insert_lookup {V} (l : list (string * V)) (data : gmap string V)
    (k : string) :
  NoDup l.*1 →
  foldl (λ data kv, <[kv.1 := kv.2]> data) data l !! k
  = match (list_to_map l : gmap string V) !! k with
    | Some v => Some v
    | None => data !! k
    end.
Proof.
  revert data. induction l as [|[k' v'] l IH]; intros data Hnodup; simpl.
  - by rewrite lookup_empty.
  - apply NoDup_cons in Hnodup as [Hk' Hnodup]. rewrite IH by done.
    rewrite !lookup_insert. destruct (decide (k' = k)) as [<-|Hne]; [|done].
    by rewrite (not_elem_of_list_to_map_1 l k').
Qed.

Lemma SyncCache_Range_insert {V} (c data : gmap string V) (k : string) :
  SyncCache.Range (λ k v (data : gmap string V), (<[k := v]> data, true)) c data
    !! k
  = match c !! k with Some v => Some v | None => data !! k end.
Proof.
  unfold SyncCache.Range.
  rewrite (range_entries_accumulate (λ k v (data : gmap string V), <[k := v]> data)).
  simpl. rewrite foldl_insert_lookup by apply NoDup_fst_map_to_list.
  by rewrite list_to_map_to_list.
Qed.

(** X8. Copy returns exactly the entries of the namespace, and nothing for a
    namespace without sub-map; Map returns exactly the entries of a namespace
    that has a sub-map. *)
Theorem Copy_and_Map_return_the_entries {V} (n : gmap string (gmap string V))
    (namespace : string) :
  NS.Copy namespace n = default ∅ (n !! namespace) ∧
  (∀ c, n !! namespace = Some c → NS.Map namespace n = Ret c).
Proof.
  split.
  - unfold NS.Copy, SyncCache.Copy. destruct (n !! namespace) as [c|]; [|done].
    simpl. apply map_eq. intros k. rewrite SyncCache_Range_insert, lookup_empty.
    by destruct (c !! k).
  - intros c Hc. unfold NS.Map, SyncCache.Map. rewrite Hc. simpl. f_equal.
    apply map_eq. intros k. rewrite SyncCache_Range_insert, lookup_empty.
    by destruct (c !! k).
Qed.

(** X9. Filter returns exactly the entries of the namespace that the filter
    accepts (none for a namespace without sub-map). *)
Theorem Filter_returns_the_accepted_entries {V} (n : gmap string (gmap string V))
    (namespace : string) (filter : string → V → bool) (key : string) (value : V) :
  NS.Filter namespace filter n !! key = Some value ↔
  NS.Get namespace key n = Some value ∧ filter key value = true.
Proof.
  unfold NS.Filter, SyncCache.Filter, NS.Get, SyncCache.Get.
  destruct (n !! namespace) as [c|].
  - apply SyncCache_Range_accepted.
  - rewrite lookup_empty. split; [done|]. by intros [? _].
Qed.

(** X10. Union returns the entries of both namespaces; under a key that both
    have, the value of the second namespace wins; a namespace without sub-map
    counts as empty. *)
Theorem Union_prefers_the_second_namespace {V} (n : gmap string (gmap string V))
    (namespace1 namespace2 key : string) :
  NS.Union namespace1 namespace2 n !! key =
  match NS.Get namespace2 key n with
  | Some v => Some v
  | None => NS.Get namespace1 key n
  end.
Proof.
  unfold NS.Union, SyncCache.Union, NS.Get, SyncCache.Get.
  destruct (n !! namespace2) as [c2|].
  - rewrite SyncCache_Range_insert. destruct (c2 !! key); [done|].
    destruct (n !! namespace1) as [c1|]; [|apply lookup_empty].
    rewrite SyncCache_Range_insert, lookup_empty. by destruct (c1 !! key).
  - destruct (n !! namespace1) as [c1|]; [|apply lookup_empty].
    rewrite SyncCache_Range_insert, lookup_empty. by destruct (c1 !! key).
Qed.

(** X11. After SetAll, a key of the given map reads as in that map and every
    other key of the namespace reads as before (SetAll merges, it does not
    replace); the other namespaces are untouched and the namespace is
    listed. *)
Theorem SetAll_merges_into_the_namespace {V} (n : gmap string (gmap string V))
    (namespace : string) (m : gmap string V) :
  (∀ key, NS.Get namespace key (NS.SetAll namespace m n) =
          match m !! key with
          | Some v => Some v
          | None => NS.Get namespace key n
          end) ∧
  (∀ namespace' key, namespace' ≠ namespace →
     NS.Get namespace' key (NS.SetAll namespace m n) = NS.Get namespace' key n) ∧
  namespace ∈ NS.Namespaces (NS.SetAll namespace m n).
Proof.
  assert (∀ c : gmap string V, ∀ key,
            SyncCache.SetAll m c !! key =
            match m !! key with Some v => Some v | None => c !! key end) as Hall.
  { intros c key. unfold SyncCache.SetAll, SyncCache.Set_.
    apply SyncCache_Range_insert. }
  unfold NS.SetAll, NS.Get, SyncCache.Get. split; [|split].
  - intros key. destruct (n !! namespace) as [c|] eqn:Hns.
    + rewrite Hns, lookup_insert_eq. apply Hall.
    + rewrite !lookup_insert_eq, Hall. by rewrite lookup_empty.
  - intros ns' key Hne. destruct (n !! namespace) as [c|] eqn:Hns.
    + rewrite Hns. by rewrite lookup_insert_ne.
    + rewrite lookup_insert_eq. by rewrite !lookup_insert_ne.
  - apply elem_of_Namespaces. destruct (n !! namespace) as [c|] eqn:Hns.
    + rewrite Hns, lookup_insert_eq. by eexists.
    + rewrite !lookup_insert_eq. by eexists.
Qed.

Lemma foldl_delete_lookup {V} (l : list (string * V)) (c : gmap string V)
    (k : string) :
  foldl (λ c kv, delete kv.1 c) c l !! k
  = if decide (k ∈ l.*1) then None else c !! k.
Proof.
  revert c. induction l as [|[k' v'] l IH]; intros c; csimpl.
  - by destruct (decide (k ∈ [])) as [?%elem_of_nil|].
  - rewrite IH. destruct (decide (k ∈ l.*1)) as [Hin|Hout].
    + rewrite decide_True; [done|]. by right.
    + rewrite lookup_delete. destruct (decide (k' = k)) as [<-|Hne].
      * rewrite decide_True; [done|]. by left.
      * rewrite decide_False; [done|]. intros [?|?]%elem_of_cons; congruence.
Qed.

(** X12. After Clear, Get finds nothing in the namespace and Len is 0; the
    other namespaces are untouched; the cleared namespace stays listed. *)
Theorem Clear_empties_the_namespace {V} (n : gmap string (gmap string V))
    (namespace : string) :
  (∀ key, NS.Get namespace key (NS.Clear namespace n) = None) ∧
  NS.Len namespace (NS.Clear namespace n) = 0 ∧
  (∀ namespace' key, namespace' ≠ namespace →
     NS.Get namespace' key (NS.Clear namespace n) = NS.Get namespace' key n) ∧
  (∀ namespace', namespace' ∈ NS.Namespaces (NS.Clear namespace n) ↔
                 namespace' ∈ NS.Namespaces n).
Proof.
  assert (∀ c : gmap string V, SyncCache.Clear c = ∅) as Hclear.
  { intros c. apply map_empty. intros k. unfold SyncCache.Clear, SyncCache.Range.
    rewrite (range_entries_accumulate (λ key _ (c : gmap string V),
                                         SyncCache.Delete key c)).
    simpl. unfold SyncCache.Delete. rewrite foldl_delete_lookup.
    destruct (decide (k ∈ (map_to_list c).*1)) as [|Hout]; [done|].
    destruct (c !! k) as [v|] eqn:Hk; [|done]. destruct Hout.
    apply list_elem_of_fmap. exists (k, v). split; [done|].
    by apply elem_of_map_to_list. }
  unfold NS.Clear, NS.Len, NS.Get, SyncCache.Get. split; [|split; [|split]].
  - intros key. destruct (n !! namespace) as [c|] eqn:Hns.
    + by rewrite lookup_insert_eq, Hclear, lookup_empty.
    + by rewrite Hns.
  - destruct (n !! namespace) as [c|] eqn:Hns.
    + rewrite lookup_insert_eq, Hclear, SyncCache_Len_size. apply map_size_empty.
    + by rewrite Hns.
  - intros ns' key Hne. destruct (n !! namespace) as [c|]; [|done].
    by rewrite lookup_insert_ne.
  - intros ns'. rewrite !elem_of_Namespaces.
    destruct (n !! namespace) as [c|] eqn:Hns; [|done].
    rewrite lookup_insert. destruct (decide (namespace = ns')) as [<-|]; [|done].
    rewrite Hns. split; intros _; by eexists.
Qed.

(** * Further properties of the graph *)

(** X13. Close on a graph that was never closed empties the four indices: no
    node and no edge is found, and no type is listed.  Every later Close does
    nothing, whatever was done to the graph in between: what is added after
    the first Close survives the second. *)
Theorem Close_empties_the_graph_once :
  (∀ g id,
     HasNode id (graph (Graph_Close (open_graph g))) = false ∧
     HasEdge id (graph (Graph_Close (open_graph g))) = false ∧
     NodeTypes (graph (Graph_Close (open_graph g))) = [] ∧
     EdgeTypes (graph (Graph_Close (open_graph g))) = [] ∧
     graph (Graph_Close (open_graph g)) = NewGraphCacheMap) ∧
  (∀ g f,
     Graph_Close (Graph_update f (Graph_Close (open_graph g)))
     = Graph_update f (Graph_Close (open_graph g))).
Proof.
  split.
  - intros g id. unfold Graph_Close, open_graph, NS_Close. cbn.
    unfold HasNode, HasEdge, GetNode, GetEdge, NodeTypes, EdgeTypes,
      NS.Namespaces. cbn [nodes edges].
    rewrite !(NS_Get_empty (V:=Node)), !(NS_Get_empty (V:=Edge)).
    by rewrite !map_to_list_empty.
  - intros g f. unfold Graph_Close, Graph_update, open_graph, NS_Close. cbn.
    by rewrite Graph_eta.
Qed.

(** X14. AddNode stores the node under its type and id, the id being the
    generated one when the node came without: GetNode and HasNode find it at
    once, every other node reads as before, and the edges map and the two
    adjacency indices are untouched. *)
Theorem AddNode_then_GetNode uuid n g :
  GetNode (node_key (Node_assign uuid n)) (AddNode uuid n g)
    = Some (Node_assign uuid n) ∧
  HasNode (node_key (Node_assign uuid n)) (AddNode uuid n g) = true ∧
  node_key (Node_assign uuid n)
    = mkTypedID (node_type n) (if bool_decide (node_id n = "") then uuid
                               else node_id n) ∧
  (∀ id, id ≠ node_key (Node_assign uuid n) →
         GetNode id (AddNode uuid n g) = GetNode id g) ∧
  edges (AddNode uuid n g) = edges g ∧
  edgesFrom (AddNode uuid n g) = edgesFrom g ∧
  edgesTo (AddNode uuid n g) = edgesTo g.
Proof.
  assert (GetNode (node_key (Node_assign uuid n)) (AddNode uuid n g)
          = Some (Node_assign uuid n)) as Hget.
  { rewrite GetNode_AddNode. by rewrite decide_True. }
  split; [done|]. split; [unfold HasNode; by rewrite Hget|]. split.
  { unfold Node_assign, node_key. by case_bool_decide. }
  split; [|done].
  intros id Hne. rewrite GetNode_AddNode. by rewrite decide_False.
Qed.

Lemma NS_Set_Set {V} (n : gmap string (gmap string V)) ns k v1 v2 :
  NS.Set_ ns k v2 (NS.Set_ ns k v1 n) = NS.Set_ ns k v2 n.
Proof.
  assert (∀ (m : gmap string (gmap string V)) v,
            NS.Set_ ns k v m = <[ns := <[k := v]> (default ∅ (m !! ns))]> m)
    as Hset.
  { intros m v. unfold NS.Set_, SyncCache.Set_.
    destruct (m !! ns) as [c|] eqn:Hns.
    - by rewrite Hns.
    - rewrite lookup_insert_eq. simpl. by rewrite insert_insert_eq. }
  rewrite !Hset, lookup_insert_eq. simpl.
  by rewrite !insert_insert_eq.
Qed.

(** X15. Adding a node under a (type, id) that is already taken replaces the
    stored node: the graph is the one the second AddNode alone gives (last
    write wins, no error). *)
Theorem AddNode_last_write_wins uuid1 n1 uuid2 n2 g :
  node_key (Node_assign uuid1 n1) = node_key (Node_assign uuid2 n2) →
  AddNode uuid2 n2 (AddNode uuid1 n1 g) = AddNode uuid2 n2 g.
Proof.
  intros [= Hty Hid]. unfold AddNode. cbn [nodes edges edgesFrom edgesTo].
  rewrite Hty, Hid. by rewrite NS_Set_Set.
Qed.

Lemma AddNode_last_write_wins_witness :
  AddNode "n2" (mkNode "user" "coleman" [("name", "cole")])
    (AddNode "n1" coleman NewGraphCacheMap)
  = AddNode "n2" (mkNode "user" "coleman" [("name", "cole")]) NewGraphCacheMap.
Proof.
  apply (AddNode_last_write_wins "n1" coleman "n2"
           (mkNode "user" "coleman" [("name", "cole")])).
  reflexivity.
Defined.

(** X16. After DelEdge the id names no edge, whether or not it did before;
    every other edge and every node read as before; a second DelEdge changes
    nothing. *)
Theorem DelEdge_removes_the_edge id g :
  HasEdge id (DelEdge id g) = false ∧
  (∀ id', id' ≠ id → GetEdge id' (DelEdge id g) = GetEdge id' g) ∧
  nodes (DelEdge id g) = nodes g ∧
  DelEdge id (DelEdge id g) = DelEdge id g.
Proof.
  assert (GetEdge id (DelEdge id g) = None) as Hgone.
  { unfold GetEdge. rewrite edges_DelEdge, NS_Get_Delete. by rewrite decide_True. }
  split; [by apply HasEdge_false|]. split; [|split].
  - intros id' Hne. unfold GetEdge. rewrite edges_DelEdge, NS_Get_Delete.
    rewrite decide_False; [done|]. intros [Hty Hid]. apply Hne.
    destruct id, id'. simpl in *. congruence.
  - apply nodes_DelEdge.
  - by apply DelEdge_absent.
Qed.

(** X17. After DelNode the id names no node, whether or not it did before;
    every other node reads as before; no edge is added or changed (an edge
    found afterwards was stored before); and the node types listed by
    NodeTypes are the same, so the type of a deleted node stays listed. *)
Theorem DelNode_removes_the_node id g :
  HasNode id (DelNode id g) = false ∧
  (∀ id', id' ≠ id → GetNode id' (DelNode id g) = GetNode id' g) ∧
  (∀ id' e, GetEdge id' (DelNode id g) = Some e → GetEdge id' g = Some e) ∧
  (∀ ty, ty ∈ NodeTypes (DelNode id g) ↔ ty ∈ NodeTypes g).
Proof.
  split; [|split; [|split]].
  - apply HasNode_false. unfold GetNode. rewrite nodes_DelNode, NS_Get_Delete.
    by rewrite decide_True.
  - intros id' Hne. unfold GetNode. rewrite nodes_DelNode, NS_Get_Delete.
    rewrite decide_False; [done|]. intros [Hty Hid]. apply Hne.
    destruct id, id'. simpl in *. congruence.
  - intros id' e. apply edges_DelNode_subset.
  - intros ty. unfold NodeTypes. rewrite nodes_DelNode. apply Namespaces_Delete.
Qed.

(** A range keeps whatever its callback keeps on the entries of the list. *)
Lemma edgeMap_Range_preserves_entries {S} (P : S → Prop) (live : S → edgeMap.t)
    (fn : Edge → S → S) (m : edgeMap.t) (s : S) :
  (∀ ty i e s, (ty, i, e) ∈ edgeMap.entries m → P s → P (fn e s)) →
  P s → P (edgeMap.Range live fn m s).
Proof.
  unfold edgeMap.Range.
  assert (∀ l s, (∀ ty i e s, (ty, i, e) ∈ l → P s → P (fn e s)) → P s →
            P (foldl (λ s '(ty, i, e),
                        match edgeMap.lookup_entry ty i (live s) with
                        | Some _ => fn e s
                        | None => s
                        end) s l)) as Hfold.
  { induction l as [|[[ty i] e] l IH]; intros s' Hfn Hs'; simpl; [done|].
    apply IH; [by intros; eapply Hfn; [right|]|].
    destruct (edgeMap.lookup_entry ty i (live s')); [|done].
    eapply Hfn; [by left|done]. }
  apply Hfold.
Qed.

Lemma indexed_DelNode_keeps_other_sources X g id e :
  indexed g → GetEdge id g = Some e → From e ≠ X →
  GetEdge id (DelNode X g) = Some e.
Proof.
  intros (I1 & I2 & _) Hget HFrom. unfold GetEdge, DelNode. cbn [edges].
  destruct (NS.Get (Type_ X) (ID X) (edgesFrom g)) as [es|] eqn:Hes; [|done].
  apply (edgeMap_Range_preserves_entries
           (λ s, NS.Get (Type_ id) (ID id) (edges s) = Some e)); [|done].
  intros ty i x s Hin%elem_of_entries Hs.
  rewrite edges_DelEdge, NS_Get_Delete. simpl.
  rewrite decide_False; [done|]. intros [Hty Hid].
  destruct (I2 X ty i x) as [Hstored HX].
  { unfold adjacent. by rewrite Hes. }
  destruct (I1 _ _ _ Hstored) as (Hty' & Hid').
  unfold GetEdge in Hget. rewrite <-Hty, <-Hid, Hty', Hid', Hstored in Hget.
  congruence.
Qed.

(** X18. DelNode cascades through the outbound list only.  In a graph built
    without adding a stored (type, id) again, an edge whose From endpoint is
    another node survives DelNode(X); when its To endpoint is X it is left
    stored with an endpoint that is no node. *)
Theorem DelNode_keeps_inbound_edges ops X id e :
  fresh_keys ops NewGraphCacheMap = true →
  GetEdge id (run ops NewGraphCacheMap) = Some e → From e ≠ X →
  GetEdge id (DelNode X (run ops NewGraphCacheMap)) = Some e ∧
  (To e = X → HasNode (To e) (DelNode X (run ops NewGraphCacheMap)) = false).
Proof.
  intros Hfresh Hget HFrom. split.
  - apply indexed_DelNode_keeps_other_sources; [|done..].
    apply indexed_run; [apply indexed_new|done].
  - intros ->. apply HasNode_false. unfold GetNode.
    rewrite nodes_DelNode, NS_Get_Delete. by rewrite decide_True.
Qed.

Lemma DelNode_keeps_inbound_edges_witness :
  GetEdge (mkTypedID "friend" "1")
    (DelNode (node_key tyler) (run friend_and_pet NewGraphCacheMap))
    = Some (friend "1" coleman tyler) ∧
  HasNode (node_key tyler)
    (DelNode (node_key tyler) (run friend_and_pet NewGraphCacheMap)) = false.
Proof.
  destruct (DelNode_keeps_inbound_edges friend_and_pet (node_key tyler)
              (mkTypedID "friend" "1") (friend "1" coleman tyler))
    as [Hget Hnode]; [reflexivity|reflexivity|discriminate|].
  exact (conj Hget (Hnode eq_refl)).
Defined.

(** X19. Once DelNode(X) has run, an AddEdge from X or to X with a non-empty
    type, From and To fails with a not-found error and leaves the graph as
    DelNode left it. *)
Theorem AddEdge_after_DelNode_is_not_found uuid e X g :
  edge_type e ≠ "" → empty_id (From e) = false → empty_id (To e) = false →
  From e = X ∨ To e = X →
  (∃ id, snd (AddEdge uuid e (DelNode X g)) = Some (NotFoundError id)) ∧
  fst (AddEdge uuid e (DelNode X g)) = DelNode X g.
Proof.
  intros Hty HFrom HTo HX.
  assert (HasNode X (DelNode X g) = false) as Hgone.
  { apply HasNode_false. unfold GetNode.
    rewrite nodes_DelNode, NS_Get_Delete. by rewrite decide_True. }
  destruct (AddEdge_cases uuid e (DelNode X g))
    as [([?|[?|?]] & _)|[(_ & _ & Herr & Hg)|(_ & Hdang & _)]];
    [congruence..|done|].
  destruct Hdang. unfold dangling. destruct HX as [->| ->]; auto.
Qed.

Lemma AddEdge_after_DelNode_is_not_found_witness :
  (∃ id, snd (AddEdge "e9" (friend "" coleman tyler)
                (DelNode (node_key tyler) (run three_nodes NewGraphCacheMap)))
         = Some (NotFoundError id)) ∧
  fst (AddEdge "e9" (friend "" coleman tyler)
         (DelNode (node_key tyler) (run three_nodes NewGraphCacheMap)))
  = DelNode (node_key tyler) (run three_nodes NewGraphCacheMap).
Proof.
  apply (AddEdge_after_DelNode_is_not_found "e9" (friend "" coleman tyler)
           (node_key tyler) (run three_nodes NewGraphCacheMap));
    [discriminate|reflexivity|reflexivity|by right].
Defined.

Lemma import_edges_keeps_added uuid k es g j e :
  es !! j = Some e →
  snd (AddEdge (uuid (k + j)) e (import_edges uuid k (take j es) g)) = None →
  HasEdge (edge_key (Edge_assign (uuid (k + j)) e)) (import_edges uuid k es g)
    = true.
Proof.
  intros Hj Herr. rewrite <-(take_drop_middle es j e Hj) at 1.
  rewrite import_edges_app. simpl.
  assert (length (take j es) = j) as ->.
  { rewrite length_take. apply lookup_lt_Some in Hj. lia. }
  apply HasEdge_import_edges, HasEdge_true.
  rewrite GetEdge_AddEdge by done. rewrite decide_True by done. by eexists.
Qed.

Lemma AddEdges_from_success uuid k es g :
  snd (AddEdges_from uuid k es g) = None →
  fst (AddEdges_from uuid k es g) = import_edges uuid k es g ∧
  (∀ j e, es !! j = Some e →
     snd (AddEdge (uuid (k + j)) e (import_edges uuid k (take j es) g)) = None).
Proof.
  revert k g. induction es as [|e es IH]; intros k g; simpl.
  - split; [done|]. by intros j e.
  - destruct (AddEdge (uuid k) e g) as [g' [err|]] eqn:Hadd; simpl; [done|].
    intros Hrest. destruct (IH _ _ Hrest) as [Hfst Hall]. split; [done|].
    intros [|j] x; simpl.
    + intros [= ->]. by rewrite Nat.add_0_r, Hadd.
    + intros Hj. rewrite Hadd. simpl.
      replace (k + S j) with (S k + j) by lia. by apply Hall.
Qed.

Lemma AddEdges_from_app uuid k l1 l2 g :
  snd (AddEdges_from uuid k l1 g) = None →
  AddEdges_from uuid k (l1 ++ l2) g
  = AddEdges_from uuid (k + length l1) l2 (fst (AddEdges_from uuid k l1 g)).
Proof.
  revert k g. induction l1 as [|e l1 IH]; intros k g; simpl.
  - by rewrite Nat.add_0_r.
  - destruct (AddEdge (uuid k) e g) as [g' [err|]] eqn:Hadd; simpl; [done|].
    intros Hrest. rewrite IH by done. f_equal. lia.
Qed.

(** X20. AddEdges returns the first error and stops there: when the edges of a
    prefix are all added and AddEdge fails on the next edge, AddEdges returns
    that error, the edges after it are not attempted, and the edges of the
    prefix stay stored (nothing is rolled back). *)
Theorem AddEdges_stops_at_the_first_error uuid l1 e l2 g err :
  snd (AddEdges uuid l1 g) = None →
  snd (AddEdge (uuid (length l1)) e (fst (AddEdges uuid l1 g))) = Some err →
  AddEdges uuid (l1 ++ e :: l2) g = (fst (AddEdges uuid l1 g), Some err) ∧
  (∀ j x, l1 !! j = Some x →
     HasEdge (edge_key (Edge_assign (uuid j) x))
       (fst (AddEdges uuid (l1 ++ e :: l2) g)) = true).
Proof.
  unfold AddEdges. intros Hprefix Herr.
  assert (AddEdges_from uuid 0 (l1 ++ e :: l2) g
          = (fst (AddEdges_from uuid 0 l1 g), Some err)) as Hrun.
  { rewrite AddEdges_from_app by done. simpl.
    destruct (AddEdge (uuid (length l1)) e (fst (AddEdges_from uuid 0 l1 g)))
      as [g' o] eqn:Hadd.
    simpl in Herr. subst o. f_equal.
    change g' with (fst (g', Some err)). rewrite <-Hadd.
    apply AddEdge_error_unchanged. rewrite Hadd. by eexists. }
  split; [done|]. rewrite Hrun. cbn [fst].
  destruct (AddEdges_from_success uuid 0 l1 g Hprefix) as [-> Hall].
  intros j x Hj. apply (import_edges_keeps_added uuid 0); [done|].
  by apply Hall.
Qed.

Lemma AddEdges_stops_at_the_first_error_witness :
  AddEdges (λ _, "e") [friend "1" coleman tyler;
                       mkEdge "" "2" (node_key coleman) (node_key tyler) [];
                       friend "3" tyler coleman]
    (run three_nodes NewGraphCacheMap)
  = (fst (AddEdges (λ _, "e") [friend "1" coleman tyler]
            (run three_nodes NewGraphCacheMap)),
     Some (ValidationError "type")).
Proof.
  apply (AddEdges_stops_at_the_first_error (λ _, "e")
           [friend "1" coleman tyler]
           (mkEdge "" "2" (node_key coleman) (node_key tyler) [])
           [friend "3" tyler coleman]).
  - vm_compute. reflexivity.
  - vm_compute. reflexivity.
Defined.

(** X21. When AddEdges returns no error, every edge it was given is stored
    under its (type, id), the id being the generated one when the edge came
    without, and the nodes are untouched. *)
Theorem AddEdges_without_error_stores_all uuid es g :
  snd (AddEdges uuid es g) = None →
  (∀ j e, es !! j = Some e →
     HasEdge (edge_key (Edge_assign (uuid j) e)) (fst (AddEdges uuid es g))
       = true) ∧
  nodes (fst (AddEdges uuid es g)) = nodes g.
Proof.
  unfold AddEdges. intros Hok.
  destruct (AddEdges_from_success uuid 0 es g Hok) as [-> Hall]. split.
  - intros j e Hj. apply (import_edges_keeps_added uuid 0); [done|].
    by apply Hall.
  - apply nodes_import_edges.
Qed.

Lemma AddEdges_without_error_stores_all_witness :
  HasEdge (mkTypedID "friend" "e")
    (fst (AddEdges (λ _, "e") [friend "" coleman tyler]
            (run three_nodes NewGraphCacheMap))) = true.
Proof.
  destruct (AddEdges_without_error_stores_all (λ _, "e")
              [friend "" coleman tyler] (run three_nodes NewGraphCacheMap))
    as [Hall _]; [vm_compute; reflexivity|].
  exact (Hall 0 (friend "" coleman tyler) eq_refl).
Defined.

(** X22. AddNodes stores every node it is given (under the generated id when
    the node came without), keeps every node that was there, and leaves the
    edges map and the adjacency indices untouched. *)
Theorem AddNodes_stores_all uuid ns g :
  (∀ j n, ns !! j = Some n →
     HasNode (node_key (Node_assign (uuid j) n)) (AddNodes uuid ns g) = true) ∧
  (∀ id, HasNode id g = true → HasNode id (AddNodes uuid ns g) = true) ∧
  edges (AddNodes uuid ns g) = edges g ∧
  edgesFrom (AddNodes uuid ns g) = edgesFrom g ∧
  edgesTo (AddNodes uuid ns g) = edgesTo g.
Proof.
  unfold AddNodes. split; [|split; [|split; [|split]]].
  - intros j n Hj. by apply (HasNode_import_nodes_lookup uuid 0).
  - intros id. apply HasNode_import_nodes.
  - apply edges_import_nodes.
  - generalize 0. revert g. induction ns as [|n ns IH]; intros g k; simpl; [done|].
    by rewrite IH.
  - generalize 0. revert g. induction ns as [|n ns IH]; intros g k; simpl; [done|].
    by rewrite IH.
Qed.

(** X23. Type-scoped iteration: with a callback that never stops,
    RangeNodeTypes visits exactly the nodes stored under the given type and
    RangeEdgeTypes exactly the edges stored under the given type; given the
    wildcard type they visit what is stored under every type. *)
Theorem typed_ranges_visit_the_type g typ :
  (∀ n, n ∈ RangeNodeTypes typ collect g [] ↔
        ∃ id, (typ = AnyType ∨ typ = Type_ id) ∧ GetNode id g = Some n) ∧
  (∀ e, e ∈ RangeEdgeTypes typ collect g [] ↔
        ∃ id, (typ = AnyType ∨ typ = Type_ id) ∧ GetEdge id g = Some e).
Proof.
  unfold RangeNodeTypes, RangeEdgeTypes, GetNode, GetEdge. split.
  - intros n. rewrite elem_of_NS_Range_collect. split.
    + intros [Hin|(ty & i & Hty & Hi)]; [by apply elem_of_nil in Hin|].
      by exists (mkTypedID ty i).
    + intros (id & Hty & Hid). right. by exists (Type_ id), (ID id).
  - intros e. rewrite elem_of_NS_Range_collect. split.
    + intros [Hin|(ty & i & Hty & Hi)]; [by apply elem_of_nil in Hin|].
      by exists (mkTypedID ty i).
    + intros (id & Hty & Hid). right. by exists (Type_ id), (ID id).
Qed.

Lemma length_range_all {V} (n : gmap string (gmap string V)) :
  AnyType ∉ NS.Namespaces n →
  length (foldl (λ s namespace, NS.Range namespace (λ _ v s, collect v s) n s)
            [] (NS.Namespaces n))
  = sum_list ((λ namespace, NS.Len namespace n) <$> NS.Namespaces n).
Proof.
  intros Hany.
  assert (∀ (l : list string) (seen : list V),
            Forall (λ namespace, namespace ≠ AnyType) l →
            length (foldl (λ s namespace,
                             NS.Range namespace (λ _ v s, collect v s) n s)
                      seen l)
            = length seen + sum_list ((λ namespace, NS.Len namespace n) <$> l))
    as Hcount.
  { induction l as [|ns l IH]; intros seen Hl; csimpl; [lia|].
    apply Forall_cons in Hl as [Hns Hl]. rewrite IH by done.
    assert (length (NS.Range ns (λ _ v s, collect v s) n seen)
            = length seen + NS.Len ns n) as ->; [|lia].
    unfold NS.Range, NS.Len. rewrite decide_False by done.
    destruct (n !! ns) as [c|]; [|lia].
    rewrite SyncCache_Range_collect, length_app, length_fmap.
    by rewrite length_map_to_list, SyncCache_Len_size. }
  rewrite Hcount; [done|]. apply Forall_forall. intros ns Hns ->. done.
Qed.

(** X24. When no node type (no edge type) is the wildcard, RangeNodes
    (RangeEdges) with a callback that never stops makes as many calls as
    there are stored nodes (edges): the sum of the number of entries over the
    types. *)
Theorem RangeNodes_visits_once_without_wildcard_type g :
  (AnyType ∉ NodeTypes g →
   length (RangeNodes collect g [])
   = sum_list ((λ ty, NS.Len ty (nodes g)) <$> NodeTypes g)) ∧
  (AnyType ∉ EdgeTypes g →
   length (RangeEdges collect g [])
   = sum_list ((λ ty, NS.Len ty (edges g)) <$> EdgeTypes g)).
Proof. split; apply length_range_all. Qed.

(** X25. Export lists exactly what is stored: a node is in the snapshot
    exactly when GetNode finds it under some id, an edge exactly when GetEdge
    does; the snapshot of a new graph is empty. *)
Theorem Export_lists_what_is_stored g :
  (∀ n, n ∈ Nodes (Graph_Export g) ↔ ∃ id, GetNode id g = Some n) ∧
  (∀ e, e ∈ Edges (Graph_Export g) ↔ ∃ id, GetEdge id g = Some e) ∧
  Graph_Export NewGraphCacheMap = mkExport [] [].
Proof.
  split; [apply elem_of_Export_Nodes|]. split; [apply elem_of_Export_Edges|].
  unfold Graph_Export, RangeNodes, RangeEdges, NodeTypes, NewGraphCacheMap,
    NS.Namespaces, NS.newCacheMap. cbn [nodes edges].
  by rewrite !map_to_list_empty.
Qed.

Lemma NodeTypes_apply_op o g ty :
  ty ∈ NodeTypes (apply_op o g) ↔
  ty ∈ NodeTypes g ∨ ∃ uuid n, o = OpAddNode uuid n ∧ node_type n = ty.
Proof.
  unfold NodeTypes. destruct o as [uuid n|uuid e|id|id]; cbn [apply_op].
  - unfold AddNode. cbn [nodes]. rewrite Namespaces_Set. unfold Node_assign.
    assert (node_type (if bool_decide (node_id n = "")
                       then Node_SetID uuid n else n) = node_type n) as ->
      by by case_bool_decide.
    split.
    + intros [->|?]; [right; by exists uuid, n|by left].
    + intros [?|(u & x & [= -> ->] & <-)]; [by right|by left].
  - rewrite nodes_AddEdge. split; [by left|].
    by intros [?|(? & ? & ? & _)].
  - rewrite nodes_DelNode, Namespaces_Delete. split; [by left|].
    by intros [?|(? & ? & ? & _)].
  - rewrite nodes_DelEdge. split; [by left|].
    by intros [?|(? & ? & ? & _)].
Qed.

(** X26. NodeTypes lists a type exactly when the history added a node of that
    type: a type stays listed after its last node is deleted. *)
Theorem NodeTypes_lists_every_type_ever_added ops ty :
  ty ∈ NodeTypes (run ops NewGraphCacheMap) ↔
  ∃ uuid n, OpAddNode uuid n ∈ ops ∧ node_type n = ty.
Proof.
  assert (∀ g, ty ∈ NodeTypes (run ops g) ↔
               ty ∈ NodeTypes g ∨
               ∃ uuid n, OpAddNode uuid n ∈ ops ∧ node_type n = ty) as Hrun.
  { induction ops as [|o ops IH]; intros g; simpl.
    - split; [by left|]. intros [?|(u & n & Hin & _)]; [done|].
      by apply elem_of_nil in Hin.
    - rewrite IH, NodeTypes_apply_op. split.
      + intros [[?|(u & n & -> & Hty)]|(u & n & Hin & Hty)].
        * by left.
        * right. exists u, n. split; [by left|done].
        * right. exists u, n. split; [by right|done].
      + intros [?|(u & n & [<-|Hin]%elem_of_cons & Hty)].
        * by left; left.
        * left; right. by exists u, n.
        * right. by exists u, n. }
  rewrite Hrun. split; [|by right]. intros [Hin|?]; [|done].
  unfold NodeTypes, NewGraphCacheMap in Hin. cbn [nodes] in Hin.
  apply elem_of_Namespaces in Hin as [c Hc]. unfold NS.newCacheMap in Hc.
  by rewrite lookup_empty in Hc.
Qed.

(** X27. Import only adds: every id that named a node before names a node
    afterwards, and every id that named an edge names an edge afterwards. *)
Theorem Import_keeps_what_is_stored uuid exp g :
  (∀ id, HasNode id g = true → HasNode id (fst (Import uuid exp g)) = true) ∧
  (∀ id, HasEdge id g = true → HasEdge id (fst (Import uuid exp g)) = true).
Proof.
  unfold Import. cbn [fst]. split.
  - intros id Hid.
    rewrite (HasNode_nodes _ (import_nodes uuid 0 (Nodes exp) g))
      by apply nodes_import_edges.
    by apply HasNode_import_nodes.
  - intros id Hid. apply HasEdge_import_edges. unfold HasEdge, GetEdge in *.
    by rewrite edges_import_nodes.
Qed.

(** X28. AddEdge changes the edges map under the (type, id) of the edge
    only, and never the nodes: every other id reads as before, whether AddEdge
    succeeds or fails. *)
Theorem AddEdge_touches_one_edge_entry uuid e g :
  (∀ id, id ≠ edge_key (Edge_assign uuid e) →
         GetEdge id (fst (AddEdge uuid e g)) = GetEdge id g) ∧
  (∀ id, GetNode id (fst (AddEdge uuid e g)) = GetNode id g).
Proof.
  split.
  - intros id Hne. destruct (snd (AddEdge uuid e g)) as [err|] eqn:Herr.
    + by rewrite AddEdge_error_unchanged by by eexists.
    + rewrite GetEdge_AddEdge by done. by rewrite decide_False.
  - intros id. unfold GetNode. by rewrite nodes_AddEdge.
Qed.

(** X29. In every graph built by AddNode, AddEdge, DelNode and DelEdge in
    which every added node and edge had an id (its own or a non-empty
    generated one), a node found under an id has that type and id, and an
    edge found under an id has that type and id, a non-empty type and
    non-empty From and To. *)
Theorem entries_are_stored_under_their_own_id ops :
  ids_assigned ops = true →
  (∀ id n, GetNode id (run ops NewGraphCacheMap) = Some n →
     node_key n = id ∧ node_id n ≠ "") ∧
  (∀ id e, GetEdge id (run ops NewGraphCacheMap) = Some e →
     edge_key e = id ∧ edge_id e ≠ "" ∧ edge_type e ≠ "" ∧
     empty_id (From e) = false ∧ empty_id (To e) = false).
Proof.
  intros Hids.
  assert (keyed (run ops NewGraphCacheMap)) as Hg
    by (apply keyed_run; [done|apply keyed_new]).
  split.
  - intros id n. by apply keyed_node_key.
  - intros id e Hget.
    destruct (keyed_edge_key _ id e Hg Hget) as (Hkey & Hid & Hvalid).
    split; [done|]. split; [done|]. unfold invalid in Hvalid.
    split; [naive_solver|].
    split; apply not_true_is_false; naive_solver.
Qed.

Lemma entries_are_stored_under_their_own_id_witness :
  (∀ id n, GetNode id (run friend_and_pet NewGraphCacheMap) = Some n →
     node_key n = id ∧ node_id n ≠ "") ∧
  (∀ id e, GetEdge id (run friend_and_pet NewGraphCacheMap) = Some e →
     edge_key e = id ∧ edge_id e ≠ "" ∧ edge_type e ≠ "" ∧
     empty_id (From e) = false ∧ empty_id (To e) = false).
Proof.
  apply (entries_are_stored_under_their_own_id friend_and_pet). reflexivity.
Defined.

Lemma EdgeTypes_DelEdge id g ty : ty ∈ EdgeTypes (DelEdge id g) ↔ ty ∈ EdgeTypes g.
Proof. unfold EdgeTypes. rewrite edges_DelEdge. apply Namespaces_Delete. Qed.

Lemma EdgeTypes_DelNode id g ty : ty ∈ EdgeTypes (DelNode id g) ↔ ty ∈ EdgeTypes g.
Proof.
  unfold EdgeTypes, DelNode. cbn [edges].
  destruct (NS.Get (Type_ id) (ID id) (edgesFrom g)) as [es|]; [|done].
  apply (edgeMap_Range_preserves
           (λ s, ty ∈ NS.Namespaces (edges s) ↔ ty ∈ NS.Namespaces (edges g)));
    [|done].
  intros e s Hs. rewrite <-Hs. apply EdgeTypes_DelEdge.
Qed.

(** X30. No operation unlists an edge type: a type listed by EdgeTypes stays
    listed after AddNode, AddEdge, DelNode and DelEdge, also when its last
    edge is deleted; and the type of an edge that AddEdge stored is listed. *)
Theorem EdgeTypes_are_never_unlisted o g :
  (∀ ty, ty ∈ EdgeTypes g → ty ∈ EdgeTypes (apply_op o g)) ∧
  (∀ uuid e, o = OpAddEdge uuid e → snd (AddEdge uuid e g) = None →
             edge_type e ∈ EdgeTypes (apply_op o g)).
Proof.
  split.
  - intros ty Hty. destruct o as [uuid n|uuid e|id|id]; cbn [apply_op].
    + done.
    + destruct (AddEdge_cases uuid e g)
        as [(_ & _ & ->)|[(_ & _ & _ & ->)|(_ & _ & _ & _ & Hedges & _)]];
        [done..|].
      unfold EdgeTypes. rewrite Hedges, Namespaces_Set. by right.
    + by apply EdgeTypes_DelNode.
    + by apply EdgeTypes_DelEdge.
  - intros uuid e -> Herr. cbn [apply_op].
    destruct (AddEdge_cases uuid e g)
      as [(_ & [? Herr'] & _)|[(_ & _ & [? Herr'] & _)
         |(_ & _ & _ & _ & Hedges & _)]]; [congruence..|].
    unfold EdgeTypes. rewrite Hedges, Namespaces_Set, Edge_assign_type.
    by left.
Qed.
